(** * shockTube.py: ignition delay extraction, wall velocity, advance loops

    A shallow embedding of [src/shockTube.py].

    Numbers.  The script computes with IEEE doubles (numpy.float64).  A
    finite double is modelled by its value, a rational [Q]; [npfloat] adds
    inf, -inf and nan.  Comparisons of doubles are exact and are modelled as
    they are.  Arithmetic on doubles rounds and can overflow, and the
    quotient of line 32 of [get_IDT] is therefore modelled at two levels.
    [get_IDT_fl quot] leaves the arithmetic of that line as a parameter
    [quot]: what is proved of it for every [quot] holds of the script
    whatever rounding and overflow do, and every statement about which
    slope is the largest is made there.  [get_IDT] is its instance with the
    exact quotient [np_div]; it serves where only the control flow, the
    indices and the signs of the slopes matter.  [quot_f64] is the instance
    that evaluates the line in binary64 with Rocq's primitive floats, on
    the doubles that Python reads from the decimal literals of a history.

    Failure.  Python exceptions are values of [exn]; code that may raise
    returns [result].  Out-of-range indexing, [argmax] of an empty array,
    an unknown species and [%] by zero are all kept. *)

From stdpp Require Import base option list strings gmap fin_maps.
From Stdlib Require Import Ascii QArith Qround Lqa ZArith.
From Corelib Require PrimFloat FloatOps SpecFloat.

Close Scope Q_scope.

(** ** Exceptions *)

Inductive exn : Set :=
| IndexError
| ValueError
| CanteraError
| ZeroDivisionError
| NoSuchSpecies.

Inductive result (A : Type) : Type :=
| ok (a : A)
| raise (e : exn).
Arguments ok {A} a.
Arguments raise {A} e.

#[global] Instance result_ret : MRet result := fun A a => ok a.
#[global] Instance result_bind : MBind result := fun A B f m =>
  match m with
  | ok a => f a
  | raise e => raise e
  end.
#[global] Instance result_fmap : FMap result := fun A B f m =>
  match m with
  | ok a => ok (f a)
  | raise e => raise e
  end.

(** [l[i]] for a non-negative index. *)
Definition py_index {A} (l : list A) (i : nat) : result A :=
  match l !! i with
  | Some x => ok x
  | None => raise IndexError
  end.

(** [l[-k]] for [k >= 1]. *)
Definition py_index_neg {A} (l : list A) (k : nat) : result A :=
  if decide (1 <= k <= length l) then py_index l (length l - k)
  else raise IndexError.

(** [for x in xs: s = body(x, s)] *)
Fixpoint for_each {A S} (body : A -> S -> result S) (xs : list A) (s : S)
  : result S :=
  match xs with
  | [] => ok s
  | x :: xs' => s' ← body x s; for_each body xs' s'
  end.

(** [for x in xs: <body that may return>] followed by [after]: the body
    yields [Some r] for [return r] and [None] to go on. *)
Fixpoint for_return {A R} (body : A -> result (option R)) (xs : list A)
    (after : result R) : result R :=
  match xs with
  | [] => after
  | x :: xs' =>
      o ← body x;
      match o with
      | Some r => ok r
      | None => for_return body xs' after
      end
  end.

(** [range(n)]; for [n <= 0] the range is empty, which is what truncated
    subtraction on [nat] gives for [range(len(a) - 1)]. *)
Definition range (n : nat) : list nat := seq 0 n.

(** ** Numbers *)

Definition Qltb (x y : Q) : bool := negb (Qle_bool y x).

Inductive npfloat : Set :=
| NaN
| NegInf
| Fin (q : Q)
| PosInf.

(** [a / b] on numpy.float64 (numpy is not part of the repository), without
    its rounding: a zero divisor gives inf, -inf or nan according to the
    sign of the dividend, and nothing is raised.  ([x - x] is [+0.0], so the
    zero divisors that arise here are positive zeros.)  The quotient of two
    doubles has the sign of this exact quotient unless it underflows to
    zero; its value is the exact one rounded, or inf on overflow. *)
Definition np_div (a b : Q) : npfloat :=
  if Qeq_bool b 0 then
    if Qltb 0 a then PosInf
    else if Qltb a 0 then NegInf
    else NaN
  else Fin (a / b).

(** [x > y]; every comparison with nan is false. *)
Definition np_gt (x y : npfloat) : bool :=
  match x, y with
  | NaN, _ | _, NaN => false
  | PosInf, PosInf => false
  | PosInf, _ => true
  | _, PosInf => false
  | NegInf, _ => false
  | Fin _, NegInf => true
  | Fin a, Fin b => Qltb b a
  end.

(** [x <= y], used in statements only. *)
Definition np_le (x y : npfloat) : bool :=
  match x, y with
  | NaN, _ | _, NaN => false
  | _, PosInf => true
  | PosInf, _ => false
  | NegInf, _ => true
  | Fin _, NegInf => false
  | Fin a, Fin b => Qle_bool a b
  end.

(** Modelled from the spec: numpy's [argmax] is not part of the
    repository.  It yields the index of the maximum, the first one on ties;
    an empty array raises. *)
Fixpoint argmax_from (best_i : nat) (best : Q) (i : nat) (l : list Q) : nat :=
  match l with
  | [] => best_i
  | x :: l' =>
      if Qltb best x then argmax_from i x (S i) l'
      else argmax_from best_i best (S i) l'
  end.

Definition argmax (l : list Q) : result nat :=
  match l with
  | [] => raise ValueError
  | x :: l' => ok (argmax_from 0 x 1 l')
  end.

(** ** Strings *)

(** [str.upper] on the ASCII letters; other bytes are left as they are. *)
Definition upper_ascii (c : ascii) : ascii :=
  let n := nat_of_ascii c in
  if (97 <=? n)%nat && (n <=? 122)%nat then ascii_of_nat (n - 32) else c.

Fixpoint upper (s : string) : string :=
  match s with
  | EmptyString => EmptyString
  | String c s' => String (upper_ascii c) (upper s')
  end.

(** [x in xs] on a list of strings *)
Definition str_in (x : string) (xs : list string) : bool :=
  existsb (String.eqb x) xs.

(** Lower case on the ASCII letters, as Cantera compares species names. *)
Definition lower_ascii (c : ascii) : ascii :=
  let n := nat_of_ascii c in
  if (65 <=? n)%nat && (n <=? 90)%nat then ascii_of_nat (n + 32) else c.

Fixpoint lower (s : string) : string :=
  match s with
  | EmptyString => EmptyString
  | String c s' => String (lower_ascii c) (lower s')
  end.

(** ** Time histories (cantera.SolutionArray with the extra column [t]) *)

(** One appended row: the thermodynamic state and the extra value [t]. *)
Record Sample : Type := mkSample {
  s_T : Q;
  s_P : Q;
  s_Y : string -> Q;
  s_t : Q
}.

Record SolutionArray : Type := mkSolutionArray {
  sa_species : list string;
  sa_rows : list Sample
}.

Definition sa_T (a : SolutionArray) : list Q := s_T <$> sa_rows a.
Definition sa_P (a : SolutionArray) : list Q := s_P <$> sa_rows a.
Definition sa_t (a : SolutionArray) : list Q := s_t <$> sa_rows a.

(** Cantera's lookup of a species by name (Cantera is not part of the
    repository).  A name that is a species as written is that species;
    otherwise the name stands for the one species that equals it once both
    are put in lower case; it stands for none when no species or more than
    one does. *)
Definition species_lookup (names : list string) (name : string)
  : option string :=
  if str_in name names then Some name
  else
    match List.filter (fun n => String.eqb (lower n) (lower name)) names with
    | [n] => Some n
    | _ => None
    end.

(** [a(species).Y] holds the mass fractions of one species over the
    rows.  A name that stands for no species raises; the exception is
    [CanteraError] or [ValueError] according to the version of Cantera,
    which [NoSuchSpecies] leaves open. *)
Definition sa_call_Y (a : SolutionArray) (species : string) : result (list Q) :=
  match species_lookup (sa_species a) species with
  | Some name => ok ((fun s => s_Y s name) <$> sa_rows a)
  | None => raise NoSuchSpecies
  end.

(** [timeHistory.append(state, t=t)] *)
Definition sa_append (a : SolutionArray) (s : Sample) : SolutionArray :=
  mkSolutionArray (sa_species a) (sa_rows a ++ [s]).

(** ** get_IDT *)

(** The forward difference quotient of the loop body at index [i], in
    exact arithmetic. *)
Definition slope (t y : list Q) (i : nat) : result npfloat :=
  y1 ← py_index y (i + 1);
  y0 ← py_index y i;
  t1 ← py_index t (i + 1);
  t0 ← py_index t i;
  ok (np_div (y1 - y0) (t1 - t0)).

(** The body of the [for] loop; the state is [(scope_max, tau_idt)]. *)
Definition get_IDT_body (t y : list Q) (i : nat) (st : npfloat * Q)
  : result (npfloat * Q) :=
  temp_scope ← slope t y i;
  if np_gt temp_scope st.1 then
    ti ← py_index t i;
    ok (temp_scope, ti)
  else ok st.

(** [solution_results.T if signal.upper() == 'T' else solution_results.P] *)
Definition signal_column (solution_results : SolutionArray) (signal : string)
  : list Q :=
  if String.eqb (upper signal) "T" then sa_T solution_results
  else sa_P solution_results.

Definition get_IDT (solution_results : SolutionArray) (signal : string)
  : result Q :=
  let tau_idt := 0%Q in
  let scope_max := Fin 0 in
  if negb (str_in (upper signal) ["T"; "P"]) then
    Y ← sa_call_Y solution_results signal;
    k ← argmax Y;
    py_index (sa_t solution_results) k
  else
    let y := signal_column solution_results signal in
    st ← for_each (get_IDT_body (sa_t solution_results) y)
                  (range (length (sa_t solution_results) - 1))
                  (scope_max, tau_idt);
    ok st.2.

(** ** The wall velocity [v], local to [run_cal_real] *)

(** The breakpoint table: row 0 holds the times, row 1 the normalised
    volumes. *)
Definition V_t : list (list Q) :=
  [[0; 2.00E-04; 4.00E-04; 6.00E-04; 8.00E-04; 0.001; 0.0012; 0.0014; 0.0016; 0.0018; 0.002; 0.0022;
    0.0024; 0.0026; 0.0028; 0.003; 0.0032; 0.0034; 0.0036; 0.0038; 0.004; 0.0042; 0.0044; 0.0046;
    0.0048;
    0.005; 0.0052; 0.0054; 0.0056; 0.0058; 0.006; 0.0062; 0.0064; 0.0066; 0.0068; 0.007; 0.0072;
    0.0074;
    0.0076; 0.0078; 0.008; 0.0082; 0.0084; 0.0086; 0.0088; 0.009];
   [1; 0.990523087; 0.981281978; 0.972267286; 0.963470131; 0.95488211; 0.946495261; 0.938302037;
    0.930295277; 0.922468181; 0.91481429; 0.907327458; 0.900001842; 0.892831873; 0.885812248;
    0.878937911;
    0.872204038; 0.865606022; 0.859139466; 0.852800165; 0.846584099; 0.840487423; 0.834506453;
    0.828637663;
    0.822877673; 0.817223244; 0.811671266; 0.806218758; 0.800862855; 0.795600807; 0.790429969;
    0.7853478;
    0.780351855; 0.775439782; 0.770609317; 0.765858279; 0.761184567; 0.756586156; 0.752061095;
    0.747607501;
    0.743223558; 0.738907513; 0.734657673; 0.730472404; 0.726350127; 0.722289314]]%Q.

(** [(V_t[1][i + 1] - V_t[1][i]) / (V_t[0][i + 1] - V_t[0][i])] *)
Definition v_quotient (V_t : list (list Q)) (i : nat) : result npfloat :=
  r1 ← py_index V_t 1; v1 ← py_index r1 (i + 1);
  r1 ← py_index V_t 1; v0 ← py_index r1 i;
  r0 ← py_index V_t 0; t1 ← py_index r0 (i + 1);
  r0 ← py_index V_t 0; t0 ← py_index r0 i;
  ok (np_div (v1 - v0) (t1 - t0)).

(** [(V_t[1][-1] - V_t[1][-2]) / (V_t[0][-1] - V_t[0][-2])] *)
Definition v_last (V_t : list (list Q)) : result npfloat :=
  r1 ← py_index V_t 1; v1 ← py_index_neg r1 1;
  r1 ← py_index V_t 1; v0 ← py_index_neg r1 2;
  r0 ← py_index V_t 0; t1 ← py_index_neg r0 1;
  r0 ← py_index V_t 0; t0 ← py_index_neg r0 2;
  ok (np_div (v1 - v0) (t1 - t0)).

(** One turn of the search loop.  The chained comparison
    [V_t[0][i] <= t < V_t[0][i + 1]] reads its right operand only when the
    left comparison holds. *)
Definition v_body (V_t : list (list Q)) (t : Q) (i : nat)
  : result (option npfloat) :=
  r0 ← py_index V_t 0; ti ← py_index r0 i;
  if Qle_bool ti t then
    r0 ← py_index V_t 0; ti1 ← py_index r0 (i + 1);
    if Qltb t ti1 then Some <$> v_quotient V_t i
    else ok None
  else ok None.

(** The body of [v] after the table literal. *)
Definition v_table (V_t : list (list Q)) (t : Q) : result npfloat :=
  r0 ← py_index V_t 0;
  for_return (v_body V_t t) (range (length r0 - 1)) (v_last V_t).

Definition v (t : Q) : result npfloat := v_table V_t t.

(** ** Gas objects and reactors *)

(** A [ct.Solution] object: its species and its state.  Setting the mole
    fractions leaves temperature and density as they are. *)
Record Solution : Type := mkSolution {
  sol_species : list string;
  sol_T : Q;
  sol_D : Q;
  sol_X : gmap string Q
}.

(** Python variables hold references to gas objects; the store maps a
    reference to the object's current state. *)
Definition loc := nat.
Abbreviation store := (gmap loc Solution).

(** Modelled from the spec: Cantera's [Reactor] is not part of the
    repository.  [ct.Reactor(contents=gas)] keeps the reference it was
    given and takes the state the object has at that moment as its own
    initial state. *)
Record Reactor : Type := mkReactor {
  r_contents : loc;
  r_initial : Solution;
  r_volume : Q
}.

Definition Reactor_new (h : store) (contents : loc) : result Reactor :=
  match h !! contents with
  | Some g => ok (mkReactor contents g 1)
  | None => raise CanteraError
  end.

Definition set_volume (r : Reactor) (vol : Q) : Reactor :=
  mkReactor (r_contents r) (r_initial r) vol.

(** Modelled from the spec: Cantera's setter of [X] is not part of the
    repository.  Mole fractions given as a dict: every key must name a
    species, the values are normalised to sum 1, species left out are
    absent (zero).  Keys are compared as written; the statements about
    [run_cal_real] are about phases that have a species written [H2]. *)
Definition normalise (comp : gmap string Q) : gmap string Q :=
  let total := map_fold (fun _ x acc => (x + acc)%Q) 0%Q comp in
  (fun x => (x / total)%Q) <$> comp.

(** [gas.X = comp]: the object behind the reference is changed in place. *)
Definition set_X (h : store) (gas : loc) (comp : gmap string Q) : result store :=
  match h !! gas with
  | Some g =>
      if forallb (fun k => str_in k (sol_species g)) (map_to_list comp).*1 then
        ok (<[gas := mkSolution (sol_species g) (sol_T g) (sol_D g) (normalise comp)]> h)
      else raise CanteraError
  | None => raise CanteraError
  end.

(** [ct.SolutionArray(gas, extra=['t'])]: an empty history over the phase
    of [gas]. *)
Definition SolutionArray_new (h : store) (gas : loc) : result SolutionArray :=
  match h !! gas with
  | Some g => ok (mkSolutionArray (sol_species g) [])
  | None => raise CanteraError
  end.

(** Lines 57 to 62 of [run_cal_real]: both reactors and the name [gas2]. *)
Definition run_cal_real_setup (h : store) (gas : loc)
  : result (Reactor * loc * Reactor * store) :=
  r1 ← Reactor_new h gas;
  let r1 := set_volume r1 1 in
  let gas2 := gas in
  h ← set_X h gas2 {[ "H2" := 1%Q ]};
  r2 ← Reactor_new h gas2;
  ok (r1, gas2, r2, h).

(** [a % b] on Python ints *)
Definition py_mod (a b : Z) : result Z :=
  if (b =? 0)%Z then raise ZeroDivisionError else ok (a mod b)%Z.

(** ** The two runners, over an abstract reactor network *)

Record ThermoState : Type := mkThermoState {
  ts_T : Q;
  ts_P : Q;
  ts_Y : string -> Q
}.

Definition sample_of (s : ThermoState) (t : Q) : Sample :=
  mkSample (ts_T s) (ts_P s) (ts_Y s) t.

(** A wall between two reactors with a prescribed velocity. *)
Record Wall : Type := mkWall {
  w_left : Reactor;
  w_right : Reactor;
  w_velocity : Q -> result npfloat
}.

Section Runners.

(** The solver is Cantera's.  What the script uses of it: building a
    network from reactors (and the walls installed on them), one internal
    step returning the new time, and reading a reactor's state. *)
Variable ReactorNet : Type.
Variable ReactorNet_new : list Reactor -> list Wall -> ReactorNet.
Variable net_step : ReactorNet -> Q * ReactorNet.
Variable net_thermo : ReactorNet -> Reactor -> ThermoState.

(** The variables of the [while] loop. *)
Record LoopState : Type := mkLoopState {
  ls_t : Q;
  ls_counter : Z;
  ls_timeHistory : SolutionArray;
  ls_net : ReactorNet
}.

(** One turn of the loop body, sampling reactor [r]. *)
Definition advance_body (r : Reactor) (print_step : Z) (s : LoopState)
  : result LoopState :=
  let '(t, net) := net_step (ls_net s) in
  m ← py_mod (ls_counter s) print_step;
  let timeHistory :=
    if (m =? 0)%Z then sa_append (ls_timeHistory s) (sample_of (net_thermo net r) t)
    else ls_timeHistory s in
  ok (mkLoopState t (ls_counter s + 1) timeHistory net).

(** [while t < end_time: ...]; [None] when the fuel runs out. *)
Fixpoint advance (fuel : nat) (r : Reactor) (end_time : Q) (print_step : Z)
    (s : LoopState) : option (result LoopState) :=
  if Qltb (ls_t s) end_time then
    match fuel with
    | O => None
    | S fuel' =>
        match advance_body r print_step s with
        | ok s' => advance fuel' r end_time print_step s'
        | raise e => Some (raise e)
        end
    end
  else Some (ok s).

Definition run_cal_ideal (fuel : nat) (h : store) (gas : loc)
    (end_time : Q) (print_step : Z) : option (result Q) :=
  match
    r ← Reactor_new h gas;
    let reactorNetwork := ReactorNet_new [r] [] in
    timeHistory ← SolutionArray_new h gas;
    ok (r, mkLoopState 0 1 timeHistory reactorNetwork)
  with
  | raise e => Some (raise e)
  | ok (r, s0) =>
      match advance fuel r end_time print_step s0 with
      | None => None
      | Some (raise e) => Some (raise e)
      | Some (ok s) =>
          Some (idt ← get_IDT (ls_timeHistory s) "T"; ok (idt * 1000)%Q)
      end
  end.

Definition run_cal_real (fuel : nat) (h : store) (gas : loc)
    (end_time : Q) (print_step : Z) : option (result Q) :=
  match
    '(r1, gas2, r2, h) ← run_cal_real_setup h gas;
    let w := mkWall r1 r2 v in
    let reactorNetwork := ReactorNet_new [r1; r2] [w] in
    timeHistory ← SolutionArray_new h gas;
    ok (r1, mkLoopState 0 1 timeHistory reactorNetwork)
  with
  | raise e => Some (raise e)
  | ok (r1, s0) =>
      match advance fuel r1 end_time print_step s0 with
      | None => None
      | Some (raise e) => Some (raise e)
      | Some (ok s) =>
          Some (idt ← get_IDT (ls_timeHistory s) "T"; ok (idt * 1000)%Q)
      end
  end.

(** The time returned by the [n]-th call of [step] (counting from 0) on a
    network, and the network after [n] calls. *)
Definition net_after (n : nat) (net : ReactorNet) : ReactorNet :=
  Nat.iter n (fun x => (net_step x).2) net.

Definition step_time (net : ReactorNet) (n : nat) : Q :=
  (net_step (net_after n net)).1.

(** The precondition on the solver: step times strictly increase and
    grow without bound. *)
Definition steps_increase (net : ReactorNet) : Prop :=
  forall n, (step_time net n < step_time net (S n))%Q.

Definition steps_unbounded (net : ReactorNet) : Prop :=
  forall bound : Q, exists n, (bound <= step_time net n)%Q.

(** The value of the loop variable [t] after [k] turns. *)
Definition t_after (net : ReactorNet) (k : nat) : Q :=
  match k with
  | O => 0%Q
  | S k' => step_time net k'
  end.

End Runners.

Arguments mkLoopState {ReactorNet} ls_t ls_counter ls_timeHistory ls_net.
Arguments ls_t {ReactorNet} l.
Arguments ls_counter {ReactorNet} l.
Arguments ls_timeHistory {ReactorNet} l.
Arguments ls_net {ReactorNet} l.
Arguments advance_body {ReactorNet} net_step net_thermo r print_step s.
Arguments advance {ReactorNet} net_step net_thermo fuel r end_time print_step s.
Arguments run_cal_ideal {ReactorNet} ReactorNet_new net_step net_thermo
  fuel h gas end_time print_step.
Arguments run_cal_real {ReactorNet} ReactorNet_new net_step net_thermo
  fuel h gas end_time print_step.
Arguments net_after {ReactorNet} net_step n net.
Arguments step_time {ReactorNet} net_step net n.
Arguments steps_increase {ReactorNet} net_step net.
Arguments steps_unbounded {ReactorNet} net_step net.
Arguments t_after {ReactorNet} net_step net k.

(** ** Notions used in the statements *)

(** The signals that take the slope branch: ['T'] and ['P'], compared
    without regard to case. *)
Definition selects_TP (signal : string) : Prop :=
  signal = "T" \/ signal = "t" \/ signal = "P" \/ signal = "p".

(** [k] is the first index at which the forward slope, taken exactly, is
    maximal, and [sk] is that slope. *)
Definition first_max_slope (t y : list Q) (k : nat) (sk : npfloat) : Prop :=
  slope t y k = ok sk /\
  (forall j sj, slope t y j = ok sj -> np_le sj sk = true) /\
  (forall j sj, j < k -> slope t y j = ok sj -> np_gt sk sj = true).

(** [k] is the first index at which [ys] is maximal. *)
Definition first_argmax (ys : list Q) (k : nat) : Prop :=
  exists yk, ys !! k = Some yk /\
    (forall j yj, ys !! j = Some yj -> (yj <= yk)%Q) /\
    (forall j yj, j < k -> ys !! j = Some yj -> (yj < yk)%Q).

(** Consecutive entries strictly increase. *)
Definition strictly_increasing (ts : list Q) : Prop :=
  forall i a b, ts !! i = Some a -> ts !! (i + 1) = Some b -> (a < b)%Q.

(** ** Sample histories *)

(** A row with time [t], temperature [T], pressure [P] and one tracked
    species, OH. *)
Definition row (t T P oh : Q) : Sample :=
  mkSample T P (fun s => if String.eqb s "OH" then oh else 0%Q) t.

Definition history_of (rows : list Sample) : SolutionArray :=
  mkSolutionArray ["H2"; "O2"; "OH"] rows.

(** Temperature falls: the only slope is negative. *)
Definition history_falling : SolutionArray :=
  history_of [row 1 5 1 0; row 2 3 1 0].

(** Slopes 1, 1200, 1200 in temperature; OH peaks twice. *)
Definition history_spike : SolutionArray :=
  history_of [row 0 300 1 0.1; row 1 301 1 0.5; row 2 1501 2 0.5;
              row 3 2701 2 0.2].

(** [T = 300 + 100 * t] on uneven time steps. *)
Definition history_ramp : SolutionArray :=
  history_of [row 1 400 1 0; row 2 500 1 0; row 4 700 1 0].

Definition history_single : SolutionArray :=
  history_of [row 1 300 1 0].

(** ** Reading the breakpoint table *)

(** The [i]-th breakpoint time and the volume tabulated there. *)
Definition breakpoint (i : nat) : option Q := r ← V_t !! 0; r !! i.
Definition volume (i : nat) : option Q := r ← V_t !! 1; r !! i.

(** The number of breakpoints. *)
Definition n_breakpoints : nat := from_option length 0 (V_t !! 0).

(** A decidable test for [strictly_increasing]. *)
Fixpoint increasingb (ts : list Q) : bool :=
  match ts with
  | a :: (b :: _) as ts' => Qltb a b && increasingb ts'
  | _ => true
  end.

Definition V_times : list Q := default [] (V_t !! 0).
Definition V_volumes : list Q := default [] (V_t !! 1).

(** The discrete derivative of the interval that starts at breakpoint
    [i]: [(V_{i+1} - V_i) / (t_{i+1} - t_i)]. *)
Definition interval_velocity (i : nat) : option Q :=
  t0 ← breakpoint i; t1 ← breakpoint (i + 1);
  v0 ← volume i; v1 ← volume (i + 1);
  Some ((v1 - v0) / (t1 - t0))%Q.

(** ** A solver stub and a gas for examples *)

(** The network state is the number of steps taken; every step advances
    the time by 0.1 ms; the temperature jumps after 2 ms. *)
Definition stub_time (n : nat) : Q := (inject_Z (Z.of_nat n) * 0.0001)%Q.

Definition stub_new (rs : list Reactor) (ws : list Wall) : nat := 0.

Definition stub_step (n : nat) : Q * nat := (stub_time (S n), S n).

Definition stub_thermo (n : nat) (r : Reactor) : ThermoState :=
  mkThermoState (if n <=? 20 then 1000%Q else 2500%Q) 2000000
    (fun _ => 0%Q).

Definition gas_mix : Solution :=
  mkSolution ["H2"; "O2"; "OH"] 1000 1 {[ "O2" := 0.21%Q; "H2" := 0.79%Q ]}.

Definition store_one : store := {[ 7 := gas_mix ]}.

(** ** Notions used in the further properties *)

(** Temperature rises across a repeated time stamp: slopes 100, inf,
    1100. *)
Definition history_repeated : SolutionArray :=
  history_of [row 0 300 1 0; row 1 400 1 0; row 1 900 1 0; row 2 2000 1 0].

(** Decidable tests on the tabulated interval velocities: each lies
    between the first and the last one and is negative; they do not
    decrease along the table. *)
Definition velocity_in_range (i : nat) : bool :=
  match interval_velocity i, interval_velocity 0,
        interval_velocity (n_breakpoints - 2) with
  | Some d, Some d0, Some d1 =>
      Qle_bool d0 d && Qle_bool d d1 && Qltb d 0
  | _, _, _ => false
  end.

Definition velocity_le (i j : nat) : bool :=
  match interval_velocity i, interval_velocity j with
  | Some d, Some d' => Qle_bool d d'
  | _, _ => false
  end.

(** The turns of the loop, counted from 1, at which a row is appended:
    those whose counter is a multiple of [print_step]. *)
Definition sampled_turns (print_step : Z) (k : nat) : list nat :=
  filter (fun c => (Z.of_nat c mod print_step = 0)%Z) (seq 1 k).

(** The row appended at turn [c]: the state of reactor [r] and the time,
    both after [c] steps. *)
Definition sample_at {ReactorNet : Type}
    (net_step : ReactorNet -> Q * ReactorNet)
    (net_thermo : ReactorNet -> Reactor -> ThermoState)
    (r : Reactor) (net0 : ReactorNet) (c : nat) : Sample :=
  sample_of (net_thermo (net_after net_step c net0) r)
    (t_after net_step net0 c).

(** The history after [k] turns. *)
Definition recorded {ReactorNet : Type}
    (net_step : ReactorNet -> Q * ReactorNet)
    (net_thermo : ReactorNet -> Reactor -> ThermoState)
    (r : Reactor) (net0 : ReactorNet) (hist0 : SolutionArray)
    (print_step : Z) (k : nat) : SolutionArray :=
  mkSolutionArray (sa_species hist0)
    (sa_rows hist0 ++
     (sample_at net_step net_thermo r net0 <$> sampled_turns print_step k)).

(** The loop state the stub reaches with [end_time = 0.005] and
    [print_step = 20]: 50 turns, rows appended at turns 20 and 40. *)
Definition stub_final : LoopState nat :=
  mkLoopState (t_after stub_step 0 50) 51
    (recorded stub_step stub_thermo (mkReactor 7 gas_mix 1) 0
       (history_of []) 20 50)
    50.

(** ** get_IDT with the arithmetic of line 32 left open *)

Section Rounded.

(** [quot y1 y0 t1 t0] stands for the double that line 32 computes from
    its four operands: [(y1 - y0) / (t1 - t0)] with the two differences and
    the quotient rounded, inf and nan included. *)
Variable quot : Q -> Q -> Q -> Q -> npfloat.

(** [temp_scope] at index [i], as computed. *)
Definition slope_fl (t y : list Q) (i : nat) : result npfloat :=
  y1 ← py_index y (i + 1);
  y0 ← py_index y i;
  t1 ← py_index t (i + 1);
  t0 ← py_index t i;
  ok (quot y1 y0 t1 t0).

(** The body of the [for] loop; the state is [(scope_max, tau_idt)]. *)
Definition get_IDT_body_fl (t y : list Q) (i : nat) (st : npfloat * Q)
  : result (npfloat * Q) :=
  temp_scope ← slope_fl t y i;
  if np_gt temp_scope st.1 then
    ti ← py_index t i;
    ok (temp_scope, ti)
  else ok st.

Definition get_IDT_fl (solution_results : SolutionArray) (signal : string)
  : result Q :=
  let tau_idt := 0%Q in
  let scope_max := Fin 0 in
  if negb (str_in (upper signal) ["T"; "P"]) then
    Y ← sa_call_Y solution_results signal;
    k ← argmax Y;
    py_index (sa_t solution_results) k
  else
    let y := signal_column solution_results signal in
    st ← for_each (get_IDT_body_fl (sa_t solution_results) y)
                  (range (length (sa_t solution_results) - 1))
                  (scope_max, tau_idt);
    ok st.2.

(** [k] is the first index at which the computed slope is maximal, and
    [sk] is that slope: no computed slope is greater, and every earlier one
    is smaller or is nan, which compares with nothing. *)
Definition first_max_slope_fl (t y : list Q) (k : nat) (sk : npfloat) : Prop :=
  slope_fl t y k = ok sk /\
  (forall j sj, slope_fl t y j = ok sj -> np_gt sj sk = false) /\
  (forall j sj, j < k -> slope_fl t y j = ok sj ->
     sj = NaN \/ np_gt sk sj = true).

(** What the loop holds after [n] turns.  Either nothing was positive and
    the state is the initial one, or the state holds the computed slope and
    the time of an index [k]: that slope is positive, nothing seen exceeds
    it, and everything before [k] is below it or nan. *)
Definition found_after (t y : list Q) (n : nat) (st : npfloat * Q) : Prop :=
  (forall j sj, j < n -> slope_fl t y j = ok sj -> np_gt sj st.1 = false) /\
  ((st = (Fin 0, 0%Q) /\
    forall j sj, j < n -> slope_fl t y j = ok sj -> np_gt sj (Fin 0) = false) \/
   (exists k, k < n /\ slope_fl t y k = ok st.1 /\ t !! k = Some st.2 /\
      np_gt st.1 (Fin 0) = true /\
      forall j sj, j < k -> slope_fl t y j = ok sj ->
        sj = NaN \/ np_gt st.1 sj = true)).

End Rounded.

(** Line 32 without rounding: the arithmetic of [slope]. *)
Definition quot_exact (y1 y0 t1 t0 : Q) : npfloat :=
  np_div (y1 - y0) (t1 - t0).

(** ** Line 32 in binary64 *)

(** The double nearest to [q], ties to even, as Python reads it from a
    decimal literal: the quotient of numerator and denominator, rounded
    once by the division of the binary64 specification.  A value beyond
    the range becomes inf, a tiny one a subnormal or zero. *)
Definition f64_of_Q (q : Q) : PrimFloat.float :=
  let ratio (s : bool) (n : positive) :=
    FloatOps.SF2Prim
      (SpecFloat.SFdiv FloatOps.prec FloatOps.emax
         (SpecFloat.S754_finite s n 0)
         (SpecFloat.S754_finite false (Qden q) 0)) in
  match Qnum q with
  | Z0 => PrimFloat.zero
  | Zpos n => ratio false n
  | Zneg n => ratio true n
  end.

(** The value of a double; the two zeros have the same value. *)
Definition f64_value (f : PrimFloat.float) : npfloat :=
  match FloatOps.Prim2SF f with
  | SpecFloat.S754_nan => NaN
  | SpecFloat.S754_infinity s => if s then NegInf else PosInf
  | SpecFloat.S754_zero _ => Fin 0
  | SpecFloat.S754_finite s m e =>
      let v :=
        match e with
        | Z0 => Qmake (Zpos m) 1
        | Zpos p => Qmake (Zpos m * 2 ^ Zpos p) 1
        | Zneg p => Qmake (Zpos m) (2 ^ p)
        end in
      Fin (if s then (- v)%Q else v)
  end.

(** [(y1 - y0) / (t1 - t0)] on doubles, by the machine's subtraction and
    division. *)
Definition quot_f64 (y1 y0 t1 t0 : Q) : npfloat :=
  f64_value
    (PrimFloat.div (PrimFloat.sub (f64_of_Q y1) (f64_of_Q y0))
                   (PrimFloat.sub (f64_of_Q t1) (f64_of_Q t0))).

(** [T = 300 + 695.2 * t] on uneven time steps: the three temperatures
    lie on one line, as decimals and as doubles. *)
Definition history_ramp_rounded : SolutionArray :=
  history_of [row 0 300 1 0; row 1 995.2 1 0; row 4 3080.8 1 0].

(** The three temperatures as doubles, with their exact values. *)
Definition ramp_rounded_values : list npfloat :=
  [f64_value (f64_of_Q 300); f64_value (f64_of_Q 995.2);
   f64_value (f64_of_Q 3080.8)].

(** Even steps of a tenth. *)
Definition history_tenths : SolutionArray :=
  history_of [row 0.1 310 1 0; row 0.2 320 1 0; row 0.3 330 1 0].

(** A first time step of the smallest positive double, then a repeated
    time stamp. *)
Definition history_overflow : SolutionArray :=
  history_of [row 0 300 1 0; row 5e-324 400 1 0; row 1 500 1 0;
              row 1 600 1 0].

(** * Properties *)

(** ** Comparisons *)

Lemma Qltb_lt (x y : Q) : Qltb x y = true <-> (x < y)%Q.
Proof.
  unfold Qltb. rewrite negb_true_iff, <- not_true_iff_false, Qle_bool_iff.
  split; [apply Qnot_le_lt | apply Qlt_not_le].
Qed.

Lemma Qltb_ge (x y : Q) : Qltb x y = false <-> (y <= x)%Q.
Proof.
  unfold Qltb. rewrite negb_false_iff. apply Qle_bool_iff.
Qed.

Lemma np_le_not_gt (a b : npfloat) : np_le a b = true -> np_gt a b = false.
Proof.
  destruct a, b; simpl; try congruence.
  rewrite Qle_bool_iff, Qltb_ge. trivial.
Qed.

Lemma np_div_fin (a b : Q) : ~ (b == 0)%Q -> np_div a b = Fin (a / b).
Proof.
  intros Hb. unfold np_div.
  destruct (Qeq_bool b 0) eqn:E; [|reflexivity].
  apply Qeq_bool_iff in E. contradiction.
Qed.

(** ** The signal selector *)

Lemma upper_ascii_T (c : ascii) :
  upper_ascii c = "T"%char <-> c = "T"%char \/ c = "t"%char.
Proof.
  split.
  - destruct c as [[] [] [] [] [] [] [] []]; vm_compute; intros H;
      first [discriminate H | left; reflexivity | right; reflexivity].
  - intros [-> | ->]; reflexivity.
Qed.

Lemma upper_ascii_P (c : ascii) :
  upper_ascii c = "P"%char <-> c = "P"%char \/ c = "p"%char.
Proof.
  split.
  - destruct c as [[] [] [] [] [] [] [] []]; vm_compute; intros H;
      first [discriminate H | left; reflexivity | right; reflexivity].
  - intros [-> | ->]; reflexivity.
Qed.

Lemma upper_T (s : string) : upper s = "T" <-> s = "T" \/ s = "t".
Proof.
  split.
  - destruct s as [|c [|c' s']]; simpl; try discriminate.
    intros H. injection H as H. apply upper_ascii_T in H.
    destruct H as [-> | ->]; auto.
  - intros [-> | ->]; reflexivity.
Qed.

Lemma upper_P (s : string) : upper s = "P" <-> s = "P" \/ s = "p".
Proof.
  split.
  - destruct s as [|c [|c' s']]; simpl; try discriminate.
    intros H. injection H as H. apply upper_ascii_P in H.
    destruct H as [-> | ->]; auto.
  - intros [-> | ->]; reflexivity.
Qed.

(** The test of line 27 sends exactly these four names to the slope
    branch. *)
Lemma selects_TP_spec (signal : string) :
  str_in (upper signal) ["T"; "P"] = true <-> selects_TP signal.
Proof.
  unfold str_in, selects_TP. simpl. rewrite orb_false_r, orb_true_iff.
  rewrite !String.eqb_eq, upper_T, upper_P. tauto.
Qed.

Lemma not_selects_TP_spec (signal : string) :
  str_in (upper signal) ["T"; "P"] = false <-> ~ selects_TP signal.
Proof.
  rewrite <- selects_TP_spec. symmetry. apply not_true_iff_false.
Qed.

(** ** Indexing and loops *)

Lemma py_index_ok {A} (l : list A) (i : nat) (x : A) :
  py_index l i = ok x <-> l !! i = Some x.
Proof.
  unfold py_index. destruct (l !! i); split; congruence.
Qed.

Lemma py_index_lt {A} (l : list A) (i : nat) :
  i < length l -> exists x, py_index l i = ok x /\ l !! i = Some x.
Proof.
  intros Hi. destruct (lookup_lt_is_Some_2 l i Hi) as [x Hx].
  exists x. split; [apply py_index_ok|]; exact Hx.
Qed.

Lemma bind_ok_inv {A B} (m : result A) (f : A -> result B) (b : B) :
  (m ≫= f) = ok b -> exists a, m = ok a /\ f a = ok b.
Proof.
  destruct m as [a|e]; simpl; [eauto | discriminate].
Qed.

Ltac bind_inv H :=
  let x := fresh "x" in
  let Hx := fresh "Hx" in
  apply bind_ok_inv in H; destruct H as (x & Hx & H).

Lemma for_each_app {A S} (body : A -> S -> result S) (xs ys : list A) (s : S) :
  for_each body (xs ++ ys) s = (for_each body xs s ≫= for_each body ys).
Proof.
  revert s. induction xs as [|x xs IH]; intros s; simpl; [reflexivity|].
  destruct (body x s) as [s'|e]; simpl; [apply IH | reflexivity].
Qed.

Lemma range_split (n k : nat) :
  k < n -> range n = seq 0 k ++ k :: seq (S k) (n - S k).
Proof.
  intros Hk. unfold range.
  replace n with (k + S (n - S k)) at 1 by lia.
  rewrite seq_app. reflexivity.
Qed.

(** ** The slope loop of get_IDT *)

Lemma slope_ok_inv (t y : list Q) (i : nat) (s : npfloat) :
  slope t y i = ok s ->
  exists y1 y0 t1 t0,
    y !! (i + 1) = Some y1 /\ y !! i = Some y0 /\
    t !! (i + 1) = Some t1 /\ t !! i = Some t0 /\
    s = np_div (y1 - y0) (t1 - t0).
Proof.
  unfold slope. intros H.
  bind_inv H. bind_inv H. bind_inv H. bind_inv H.
  injection H as <-.
  rewrite py_index_ok in *. eauto 10.
Qed.

Lemma slope_ok_intro (t y : list Q) (i : nat) (y1 y0 t1 t0 : Q) :
  y !! (i + 1) = Some y1 -> y !! i = Some y0 ->
  t !! (i + 1) = Some t1 -> t !! i = Some t0 ->
  slope t y i = ok (np_div (y1 - y0) (t1 - t0)).
Proof.
  intros H1 H2 H3 H4. unfold slope, py_index.
  rewrite H1, H2, H3, H4. reflexivity.
Qed.

Lemma slope_total (t y : list Q) (i : nat) :
  length y = length t -> i + 1 < length t -> exists s, slope t y i = ok s.
Proof.
  intros Hlen Hi.
  destruct (py_index_lt y (i + 1)) as (y1 & _ & H1); [lia|].
  destruct (py_index_lt y i) as (y0 & _ & H2); [lia|].
  destruct (py_index_lt t (i + 1)) as (t1 & _ & H3); [lia|].
  destruct (py_index_lt t i) as (t0 & _ & H4); [lia|].
  eexists. apply slope_ok_intro; eassumption.
Qed.

Lemma slope_ok_lt (t y : list Q) (i : nat) (s : npfloat) :
  slope t y i = ok s -> i + 1 < length t.
Proof.
  intros H. apply slope_ok_inv in H.
  destruct H as (? & ? & ? & ? & _ & _ & H & _).
  eapply lookup_lt_Some, H.
Qed.

Lemma body_keep (t y : list Q) (i : nat) (st : npfloat * Q) (s : npfloat) :
  slope t y i = ok s -> np_gt s st.1 = false ->
  get_IDT_body t y i st = ok st.
Proof.
  intros Hs Hgt. unfold get_IDT_body. rewrite Hs. simpl. rewrite Hgt.
  reflexivity.
Qed.

Lemma body_take (t y : list Q) (i : nat) (st : npfloat * Q) (s : npfloat)
    (ti : Q) :
  slope t y i = ok s -> np_gt s st.1 = true -> t !! i = Some ti ->
  get_IDT_body t y i st = ok (s, ti).
Proof.
  intros Hs Hgt Hti. unfold get_IDT_body. rewrite Hs. simpl. rewrite Hgt.
  apply py_index_ok in Hti. rewrite Hti. reflexivity.
Qed.

(** Every turn either keeps the state or replaces it by the slope and the
    time at its index. *)
Lemma body_cases (t y : list Q) (i : nat) (st : npfloat * Q) :
  length y = length t -> i + 1 < length t ->
  exists s ti, slope t y i = ok s /\ t !! i = Some ti /\
    (np_gt s st.1 = false /\ get_IDT_body t y i st = ok st \/
     np_gt s st.1 = true /\ get_IDT_body t y i st = ok (s, ti)).
Proof.
  intros Hlen Hi.
  destruct (slope_total t y i Hlen Hi) as [s Hs].
  destruct (py_index_lt t i) as (ti & _ & Hti); [lia|].
  exists s, ti. split; [exact Hs|]. split; [exact Hti|].
  destruct (np_gt s st.1) eqn:E.
  - right. split; [reflexivity|]. eapply body_take; eassumption.
  - left. split; [reflexivity|]. eapply body_keep; eassumption.
Qed.

(** The loop never raises on columns of equal length. *)
Lemma slope_loop_total (t y : list Q) (xs : list nat) (st : npfloat * Q) :
  length y = length t -> Forall (fun i => i + 1 < length t) xs ->
  exists st', for_each (get_IDT_body t y) xs st = ok st'.
Proof.
  intros Hlen Hxs. revert st.
  induction Hxs as [|i xs Hi _ IH]; intros st; simpl; [eauto|].
  destruct (body_cases t y i st Hlen Hi) as (s & ti & _ & _ & [[_ ->] | [_ ->]]);
    simpl; apply IH.
Qed.

(** Where nothing exceeds the running maximum, the state stays. *)
Lemma slope_loop_after (t y : list Q) (xs : list nat) (st : npfloat * Q) :
  length y = length t ->
  Forall (fun i => i + 1 < length t) xs ->
  (forall j sj, slope t y j = ok sj -> np_gt sj st.1 = false) ->
  for_each (get_IDT_body t y) xs st = ok st.
Proof.
  intros Hlen Hxs Hmax.
  induction Hxs as [|i xs Hi _ IH]; simpl; [reflexivity|].
  destruct (slope_total t y i Hlen Hi) as [s Hs].
  rewrite (body_keep t y i st s Hs (Hmax _ _ Hs)). simpl. exact IH.
Qed.

Lemma seq_Forall_lt (a n b : nat) :
  a + n <= b -> Forall (fun i => i < b) (seq a n).
Proof.
  intros H. apply Forall_forall. intros i Hi.
  apply list_elem_of_In, in_seq in Hi. lia.
Qed.

(** The returned time is [0] or one of the sample times. *)
Lemma slope_loop_elem (t y : list Q) (xs : list nat) (st st' : npfloat * Q) :
  for_each (get_IDT_body t y) xs st = ok st' ->
  st'.2 = st.2 \/ st'.2 ∈ t.
Proof.
  revert st. induction xs as [|i xs IH]; intros st H; simpl in H.
  - injection H as <-. left. reflexivity.
  - apply bind_ok_inv in H. destruct H as (st1 & Hbody & H).
    apply IH in H.
    assert (Hst1 : st1.2 = st.2 \/ st1.2 ∈ t).
    { unfold get_IDT_body in Hbody.
      apply bind_ok_inv in Hbody. destruct Hbody as (s & _ & Hbody).
      destruct (np_gt s st.1).
      - apply bind_ok_inv in Hbody. destruct Hbody as (ti & Hti & Hbody).
        injection Hbody as <-. right. simpl.
        apply py_index_ok in Hti. eapply list_elem_of_lookup_2, Hti.
      - injection Hbody as <-. left. reflexivity. }
    destruct H as [-> | H]; [exact Hst1 | right; exact H].
Qed.

Lemma column_length (a : SolutionArray) (signal : string) :
  length (signal_column a signal) = length (sa_t a).
Proof.
  unfold signal_column, sa_T, sa_P, sa_t.
  destruct (String.eqb _ _); rewrite !length_fmap; reflexivity.
Qed.

(** On the slope branch get_IDT is the loop's second component. *)
Lemma get_IDT_slope_branch (a : SolutionArray) (signal : string) :
  selects_TP signal ->
  get_IDT a signal =
    (for_each (get_IDT_body (sa_t a) (signal_column a signal))
       (range (length (sa_t a) - 1)) (Fin 0, 0%Q) ≫= fun st => ok st.2).
Proof.
  intros H. apply selects_TP_spec in H. unfold get_IDT. rewrite H.
  reflexivity.
Qed.

Lemma get_IDT_species_branch (a : SolutionArray) (signal : string) :
  ~ selects_TP signal ->
  get_IDT a signal =
    (sa_call_Y a signal ≫= fun Y =>
     argmax Y ≫= fun k => py_index (sa_t a) k).
Proof.
  intros H. apply not_selects_TP_spec in H. unfold get_IDT. rewrite H.
  reflexivity.
Qed.

(** ** get_IDT on temperature and pressure *)

Lemma get_IDT_no_rise (a : SolutionArray) (signal : string) :
  selects_TP signal ->
  (forall j sj, slope (sa_t a) (signal_column a signal) j = ok sj ->
     np_gt sj (Fin 0) = false) ->
  get_IDT a signal = ok 0%Q.
Proof.
  intros Hsig Hflat.
  rewrite (get_IDT_slope_branch a signal Hsig).
  rewrite slope_loop_after; [reflexivity | apply column_length | | exact Hflat].
  eapply Forall_impl; [apply (seq_Forall_lt _ _ (length (sa_t a) - 1)); lia|].
  simpl. intros; lia.
Qed.

(** With increasing times, a signal that never rises has no positive
    slope. *)
Lemma non_increasing_no_rise (t y : list Q) (j : nat) (sj : npfloat) :
  strictly_increasing t ->
  (forall i y0 y1, y !! i = Some y0 -> y !! (i + 1) = Some y1 -> (y1 <= y0)%Q) ->
  slope t y j = ok sj ->
  np_gt sj (Fin 0) = false.
Proof.
  intros Hinc Hfall Hs.
  apply slope_ok_inv in Hs.
  destruct Hs as (y1 & y0 & t1 & t0 & Hy1 & Hy0 & Ht1 & Ht0 & ->).
  pose proof (Hinc j t0 t1 Ht0 Ht1) as Hlt.
  pose proof (Hfall j y0 y1 Hy0 Hy1) as Hle.
  rewrite np_div_fin by lra.
  simpl. apply Qltb_ge.
  apply Qle_shift_div_r; lra.
Qed.

Lemma get_IDT_short (a : SolutionArray) (signal : string) :
  selects_TP signal -> length (sa_rows a) < 2 -> get_IDT a signal = ok 0%Q.
Proof.
  intros Hsig Hlen.
  rewrite (get_IDT_slope_branch a signal Hsig).
  replace (length (sa_t a) - 1) with 0; [reflexivity|].
  unfold sa_t. rewrite length_fmap. lia.
Qed.

Lemma get_IDT_slope_total (a : SolutionArray) (signal : string) :
  selects_TP signal -> exists r, get_IDT a signal = ok r.
Proof.
  intros Hsig. rewrite (get_IDT_slope_branch a signal Hsig).
  destruct (slope_loop_total (sa_t a) (signal_column a signal)
              (range (length (sa_t a) - 1)) (Fin 0, 0%Q)) as [st ->].
  - apply column_length.
  - eapply Forall_impl; [apply (seq_Forall_lt _ _ (length (sa_t a) - 1)); lia|].
    simpl. intros; lia.
  - simpl. eauto.
Qed.

(** ** get_IDT on a species *)

Lemma argmax_from_spec (l pre : list Q) (bi i : nat) (b : Q) :
  length pre = i -> bi < i -> pre !! bi = Some b ->
  (forall j yj, pre !! j = Some yj -> (yj <= b)%Q) ->
  (forall j yj, j < bi -> pre !! j = Some yj -> (yj < b)%Q) ->
  first_argmax (pre ++ l) (argmax_from bi b i l).
Proof.
  revert pre bi i b.
  induction l as [|x l IH]; intros pre bi i b Hlen Hbi Hb Hle Hlt; simpl.
  - rewrite app_nil_r. exists b. auto.
  - replace (pre ++ x :: l) with ((pre ++ [x]) ++ l)
      by (rewrite <- app_assoc; reflexivity).
    assert (Hsplit : forall j yj, (pre ++ [x]) !! j = Some yj ->
              (j < i /\ pre !! j = Some yj) \/ (j = i /\ yj = x)).
    { intros j yj Hj. destruct (decide (j < i)) as [Hji|Hji].
      - left. rewrite lookup_app_l in Hj by lia. auto.
      - right. rewrite lookup_app_r in Hj by lia.
        destruct (j - length pre) as [|n] eqn:E; simpl in Hj; [|discriminate].
        injection Hj as <-. split; [lia | reflexivity]. }
    destruct (Qltb b x) eqn:E.
    + apply Qltb_lt in E. apply IH.
      * rewrite length_app. simpl. lia.
      * lia.
      * rewrite lookup_app_r by lia. rewrite Hlen, Nat.sub_diag. reflexivity.
      * intros j yj Hj. destruct (Hsplit j yj Hj) as [[_ Hj'] | [_ ->]].
        -- apply Hle in Hj'. lra.
        -- apply Qle_refl.
      * intros j yj Hji Hj. destruct (Hsplit j yj Hj) as [[_ Hj'] | [-> _]].
        -- apply Hle in Hj'. lra.
        -- lia.
    + apply Qltb_ge in E. apply IH.
      * rewrite length_app. simpl. lia.
      * lia.
      * rewrite lookup_app_l by lia. exact Hb.
      * intros j yj Hj. destruct (Hsplit j yj Hj) as [[_ Hj'] | [_ ->]].
        -- eapply Hle, Hj'.
        -- exact E.
      * intros j yj Hji Hj. destruct (Hsplit j yj Hj) as [[_ Hj'] | [-> _]].
        -- eapply Hlt; eassumption.
        -- lia.
Qed.

Lemma argmax_spec (l : list Q) :
  l <> [] -> exists k, argmax l = ok k /\ first_argmax l k.
Proof.
  destruct l as [|x l]; [congruence|]. intros _.
  eexists. split; [reflexivity|].
  apply (argmax_from_spec l [x] 0 1 x); try reflexivity; try lia.
  - intros [|j] yj Hj; simpl in Hj; [|discriminate].
    injection Hj as <-. apply Qle_refl.
Qed.

Lemma first_argmax_lt (l : list Q) (k : nat) : first_argmax l k -> k < length l.
Proof.
  intros (yk & Hk & _). eapply lookup_lt_Some, Hk.
Qed.

Lemma species_lookup_exact (names : list string) (name : string) :
  str_in name names = true -> species_lookup names name = Some name.
Proof.
  intros H. unfold species_lookup. rewrite H. reflexivity.
Qed.

Lemma get_IDT_species (a : SolutionArray) (signal name : string) :
  ~ selects_TP signal ->
  sa_rows a <> [] ->
  species_lookup (sa_species a) signal = Some name ->
  exists Y k tk,
    Y = (fun s => s_Y s name) <$> sa_rows a /\
    sa_call_Y a signal = ok Y /\ first_argmax Y k /\
    sa_t a !! k = Some tk /\ get_IDT a signal = ok tk.
Proof.
  intros Hsig Hne Hsp.
  rewrite (get_IDT_species_branch a signal Hsig).
  unfold sa_call_Y. rewrite Hsp.
  set (Y := (fun s => s_Y s name) <$> sa_rows a).
  destruct (argmax_spec Y) as (k & Hk & Hfirst).
  { subst Y. destruct (sa_rows a); [congruence | discriminate]. }
  destruct (py_index_lt (sa_t a) k) as (tk & Hidx & Htk).
  { apply first_argmax_lt in Hfirst. subst Y. unfold sa_t.
    rewrite length_fmap in *. exact Hfirst. }
  exists Y, k, tk. simpl. rewrite Hk. simpl. auto.
Qed.

Lemma get_IDT_no_species (a : SolutionArray) (signal : string) :
  ~ selects_TP signal ->
  species_lookup (sa_species a) signal = None ->
  get_IDT a signal = raise NoSuchSpecies.
Proof.
  intros Hsig Hsp.
  rewrite (get_IDT_species_branch a signal Hsig).
  unfold sa_call_Y. rewrite Hsp. reflexivity.
Qed.

(** ** The sign of the result *)

Lemma get_IDT_elem (a : SolutionArray) (signal : string) (r : Q) :
  get_IDT a signal = ok r -> r = 0%Q \/ r ∈ sa_t a.
Proof.
  intros H. unfold get_IDT in H.
  destruct (negb (str_in (upper signal) ["T"; "P"])).
  - apply bind_ok_inv in H. destruct H as (Y & _ & H).
    apply bind_ok_inv in H. destruct H as (k & _ & H).
    apply py_index_ok in H. right. eapply list_elem_of_lookup_2, H.
  - apply bind_ok_inv in H. destruct H as (st & Hloop & H).
    injection H as <-. apply slope_loop_elem in Hloop. exact Hloop.
Qed.

(** ** The slope loop, whatever the arithmetic of line 32 *)

Lemma get_IDT_exact (a : SolutionArray) (signal : string) :
  get_IDT_fl quot_exact a signal = get_IDT a signal.
Proof. reflexivity. Qed.

Section RoundedLoop.

Variable quot : Q -> Q -> Q -> Q -> npfloat.

Lemma slope_fl_total (t y : list Q) (i : nat) :
  length y = length t -> i + 1 < length t ->
  exists s, slope_fl quot t y i = ok s.
Proof.
  intros Hlen Hi.
  destruct (py_index_lt y (i + 1)) as (y1 & H1 & _); [lia|].
  destruct (py_index_lt y i) as (y0 & H2 & _); [lia|].
  destruct (py_index_lt t (i + 1)) as (t1 & H3 & _); [lia|].
  destruct (py_index_lt t i) as (t0 & H4 & _); [lia|].
  unfold slope_fl. rewrite H1, H2, H3, H4. simpl. eauto.
Qed.

Lemma slope_fl_lt (t y : list Q) (i : nat) (s : npfloat) :
  slope_fl quot t y i = ok s -> i + 1 < length t.
Proof.
  unfold slope_fl. intros H.
  apply bind_ok_inv in H. destruct H as (y1 & _ & H).
  apply bind_ok_inv in H. destruct H as (y0 & _ & H).
  apply bind_ok_inv in H. destruct H as (t1 & Ht1 & _).
  apply py_index_ok in Ht1. eapply lookup_lt_Some, Ht1.
Qed.

Lemma body_fl_keep (t y : list Q) (i : nat) (st : npfloat * Q) (s : npfloat) :
  slope_fl quot t y i = ok s -> np_gt s st.1 = false ->
  get_IDT_body_fl quot t y i st = ok st.
Proof.
  intros Hs Hgt. unfold get_IDT_body_fl. rewrite Hs. simpl. rewrite Hgt.
  reflexivity.
Qed.

Lemma body_fl_take (t y : list Q) (i : nat) (st : npfloat * Q) (s : npfloat)
    (ti : Q) :
  slope_fl quot t y i = ok s -> np_gt s st.1 = true -> t !! i = Some ti ->
  get_IDT_body_fl quot t y i st = ok (s, ti).
Proof.
  intros Hs Hgt Hti. unfold get_IDT_body_fl. rewrite Hs. simpl. rewrite Hgt.
  apply py_index_ok in Hti. rewrite Hti. reflexivity.
Qed.

Lemma body_fl_cases (t y : list Q) (i : nat) (st : npfloat * Q) :
  length y = length t -> i + 1 < length t ->
  exists s ti, slope_fl quot t y i = ok s /\ t !! i = Some ti /\
    (np_gt s st.1 = false /\ get_IDT_body_fl quot t y i st = ok st \/
     np_gt s st.1 = true /\ get_IDT_body_fl quot t y i st = ok (s, ti)).
Proof.
  intros Hlen Hi.
  destruct (slope_fl_total t y i Hlen Hi) as [s Hs].
  destruct (py_index_lt t i) as (ti & _ & Hti); [lia|].
  exists s, ti. split; [exact Hs|]. split; [exact Hti|].
  destruct (np_gt s st.1) eqn:E.
  - right. split; [reflexivity|]. eapply body_fl_take; eassumption.
  - left. split; [reflexivity|]. eapply body_fl_keep; eassumption.
Qed.

(** The loop raises nothing on columns of equal length: division by zero
    and overflow yield inf or nan. *)
Lemma loop_fl_total (t y : list Q) (xs : list nat) (st : npfloat * Q) :
  length y = length t -> Forall (fun i => i + 1 < length t) xs ->
  exists st', for_each (get_IDT_body_fl quot t y) xs st = ok st'.
Proof.
  intros Hlen Hxs. revert st.
  induction Hxs as [|i xs Hi _ IH]; intros st; simpl; [eauto|].
  destruct (body_fl_cases t y i st Hlen Hi)
    as (s & ti & _ & _ & [[_ ->] | [_ ->]]); simpl; apply IH.
Qed.

(** Before the first maximum the running maximum stays below it: a slope
    that replaces it is not nan, so it is below the maximum as well. *)
Lemma loop_fl_before (t y : list Q) (k : nat) (sk : npfloat)
    (xs : list nat) (st : npfloat * Q) :
  length y = length t -> first_max_slope_fl quot t y k sk ->
  Forall (fun i => i < k) xs -> np_gt sk st.1 = true ->
  exists st', for_each (get_IDT_body_fl quot t y) xs st = ok st' /\
    np_gt sk st'.1 = true.
Proof.
  intros Hlen (Hk & _ & Hbefore) Hxs. revert st.
  induction Hxs as [|i xs Hi _ IH]; intros st Hst; simpl; [eauto|].
  assert (Hi' : i + 1 < length t) by (apply slope_fl_lt in Hk; lia).
  destruct (body_fl_cases t y i st Hlen Hi')
    as (s & ti & Hs & _ & [[_ ->] | [Hgt ->]]);
    simpl; apply IH; [exact Hst|].
  simpl. destruct (Hbefore i s Hi Hs) as [-> | H]; [discriminate Hgt | exact H].
Qed.

(** Where nothing exceeds the running maximum, the state stays. *)
Lemma loop_fl_after (t y : list Q) (xs : list nat) (st : npfloat * Q) :
  length y = length t ->
  Forall (fun i => i + 1 < length t) xs ->
  (forall j sj, slope_fl quot t y j = ok sj -> np_gt sj st.1 = false) ->
  for_each (get_IDT_body_fl quot t y) xs st = ok st.
Proof.
  intros Hlen Hxs Hmax.
  induction Hxs as [|i xs Hi _ IH]; simpl; [reflexivity|].
  destruct (slope_fl_total t y i Hlen Hi) as [s Hs].
  rewrite (body_fl_keep t y i st s Hs (Hmax _ _ Hs)). simpl. exact IH.
Qed.

Lemma loop_fl_first_max (t y : list Q) (k : nat) (sk : npfloat) (tk : Q) :
  length y = length t -> first_max_slope_fl quot t y k sk ->
  np_gt sk (Fin 0) = true -> t !! k = Some tk ->
  for_each (get_IDT_body_fl quot t y) (range (length t - 1)) (Fin 0, 0%Q)
    = ok (sk, tk).
Proof.
  intros Hlen Hfm Hpos Htk.
  pose proof Hfm as (Hk & Hmax & _).
  pose proof (slope_fl_lt _ _ _ _ Hk) as Hlt.
  rewrite (range_split (length t - 1) k) by lia.
  rewrite for_each_app.
  destruct (loop_fl_before t y k sk (seq 0 k) (Fin 0, 0%Q) Hlen Hfm)
    as (st' & -> & Hst'); [apply seq_Forall_lt; lia | exact Hpos |].
  simpl. rewrite (body_fl_take t y k st' sk tk Hk Hst' Htk). simpl.
  apply loop_fl_after; [exact Hlen | | exact Hmax].
  eapply Forall_impl; [apply (seq_Forall_lt _ _ (length t - 1)); lia|].
  simpl. intros; lia.
Qed.

(** On the slope branch get_IDT is the loop's second component. *)
Lemma get_IDT_fl_slope_branch (a : SolutionArray) (signal : string) :
  selects_TP signal ->
  get_IDT_fl quot a signal =
    (for_each (get_IDT_body_fl quot (sa_t a) (signal_column a signal))
       (range (length (sa_t a) - 1)) (Fin 0, 0%Q) ≫= fun st => ok st.2).
Proof.
  intros H. apply selects_TP_spec in H. unfold get_IDT_fl. rewrite H.
  reflexivity.
Qed.

Lemma get_IDT_fl_first_max (a : SolutionArray) (signal : string) (k : nat)
    (sk : npfloat) (tk : Q) :
  selects_TP signal ->
  first_max_slope_fl quot (sa_t a) (signal_column a signal) k sk ->
  np_gt sk (Fin 0) = true ->
  sa_t a !! k = Some tk ->
  get_IDT_fl quot a signal = ok tk.
Proof.
  intros Hsig Hfm Hpos Htk.
  rewrite (get_IDT_fl_slope_branch a signal Hsig).
  rewrite (loop_fl_first_max _ _ k sk tk (column_length a signal) Hfm Hpos Htk).
  reflexivity.
Qed.

(** The first pair wins when nothing exceeds its positive slope. *)
Lemma get_IDT_fl_first_pair (a : SolutionArray) (signal : string)
    (s0 : npfloat) (t0 : Q) :
  selects_TP signal ->
  slope_fl quot (sa_t a) (signal_column a signal) 0 = ok s0 ->
  np_gt s0 (Fin 0) = true ->
  (forall j sj, slope_fl quot (sa_t a) (signal_column a signal) j = ok sj ->
     np_gt sj s0 = false) ->
  sa_t a !! 0 = Some t0 ->
  get_IDT_fl quot a signal = ok t0.
Proof.
  intros Hsig Hs0 Hpos Hmax Ht0.
  apply (get_IDT_fl_first_max a signal 0 s0 t0 Hsig); [|exact Hpos | exact Ht0].
  split; [exact Hs0|]. split; [exact Hmax|]. intros j sj Hj. lia.
Qed.

End RoundedLoop.

(** ** The wall velocity over a sorted table *)

Lemma increasingb_spec (ts : list Q) :
  increasingb ts = true -> strictly_increasing ts.
Proof.
  induction ts as [|a ts IH]; intros H i x y Hx Hy; [discriminate Hx|].
  destruct ts as [|b ts]; [destruct i; discriminate Hy|].
  simpl in H. apply andb_true_iff in H. destruct H as [Hab Hrest].
  destruct i as [|i]; simpl in Hx, Hy.
  - injection Hx as <-. injection Hy as <-. apply Qltb_lt, Hab.
  - eapply (IH Hrest i); eassumption.
Qed.

Lemma increasing_le (ts : list Q) (i j : nat) (a b : Q) :
  strictly_increasing ts -> i <= j ->
  ts !! i = Some a -> ts !! j = Some b -> (a <= b)%Q.
Proof.
  intros Hinc Hij Ha. revert b.
  induction Hij as [|j Hij IH]; intros b Hb.
  - rewrite Ha in Hb. injection Hb as <-. apply Qle_refl.
  - destruct (lookup_lt_is_Some_2 ts j) as [c Hc].
    { apply lookup_lt_Some in Hb. lia. }
    specialize (IH c Hc).
    assert (c < b)%Q by (apply (Hinc j); [exact Hc | rewrite Nat.add_1_r; exact Hb]).
    lra.
Qed.

Lemma for_return_skip {A R} (body : A -> result (option R)) (xs ys : list A)
    (after : result R) :
  Forall (fun x => body x = ok None) xs ->
  for_return body (xs ++ ys) after = for_return body ys after.
Proof.
  induction 1 as [|x xs Hx _ IH]; simpl; [reflexivity|].
  rewrite Hx. simpl. exact IH.
Qed.

Lemma for_return_all_skip {A R} (body : A -> result (option R)) (xs : list A)
    (after : result R) :
  Forall (fun x => body x = ok None) xs ->
  for_return body xs after = after.
Proof.
  intros H. rewrite <- (app_nil_r xs). rewrite for_return_skip by exact H.
  reflexivity.
Qed.

Section WallTable.

Variables ts vs : list Q.
Hypothesis Hlen : length vs = length ts.
Hypothesis Hinc : strictly_increasing ts.

Let tab : list (list Q) := [ts; vs].

Lemma v_quotient_at (i : nat) (a b va vb : Q) :
  ts !! i = Some a -> ts !! (i + 1) = Some b ->
  vs !! i = Some va -> vs !! (i + 1) = Some vb ->
  v_quotient tab i = ok (Fin ((vb - va) / (b - a))).
Proof.
  intros Ha Hb Hva Hvb. unfold v_quotient, tab, py_index. simpl.
  rewrite Ha, Hb, Hva, Hvb. simpl.
  rewrite np_div_fin; [reflexivity|].
  pose proof (Hinc i a b Ha Hb). lra.
Qed.

Lemma v_body_hit (t : Q) (i : nat) (a b va vb : Q) :
  ts !! i = Some a -> ts !! (i + 1) = Some b ->
  vs !! i = Some va -> vs !! (i + 1) = Some vb ->
  (a <= t)%Q -> (t < b)%Q ->
  v_body tab t i = ok (Some (Fin ((vb - va) / (b - a)))).
Proof.
  intros Ha Hb Hva Hvb Hat Htb.
  pose proof (v_quotient_at i a b va vb Ha Hb Hva Hvb) as Hq.
  unfold v_body, py_index. simpl.
  rewrite Ha. simpl.
  apply Qle_bool_iff in Hat. rewrite Hat. rewrite Hb. simpl.
  apply Qltb_lt in Htb. rewrite Htb.
  rewrite Hq. reflexivity.
Qed.

Lemma v_body_left (t : Q) (i : nat) (a : Q) :
  ts !! i = Some a -> (t < a)%Q -> v_body tab t i = ok None.
Proof.
  intros Ha Hta. unfold v_body, tab, py_index. simpl. rewrite Ha. simpl.
  destruct (Qle_bool a t) eqn:E; [|reflexivity].
  apply Qle_bool_iff in E. lra.
Qed.

Lemma v_body_right (t : Q) (i : nat) (b : Q) :
  i + 1 < length ts -> ts !! (i + 1) = Some b -> (b <= t)%Q ->
  v_body tab t i = ok None.
Proof.
  intros Hi Hb Hbt.
  destruct (lookup_lt_is_Some_2 ts i) as [a Ha]; [lia|].
  unfold v_body, tab, py_index. simpl. rewrite Ha. simpl.
  destruct (Qle_bool a t); [|reflexivity].
  rewrite Hb. simpl.
  apply Qltb_ge in Hbt. rewrite Hbt. reflexivity.
Qed.

(** Every turn goes on or returns a finite quotient. *)
Lemma v_body_total (t : Q) (i : nat) :
  i + 1 < length ts ->
  v_body tab t i = ok None \/ exists q, v_body tab t i = ok (Some (Fin q)).
Proof.
  intros Hi.
  destruct (lookup_lt_is_Some_2 ts i) as [a Ha]; [lia|].
  destruct (lookup_lt_is_Some_2 ts (i + 1)) as [b Hb]; [lia|].
  destruct (lookup_lt_is_Some_2 vs i) as [va Hva]; [lia|].
  destruct (lookup_lt_is_Some_2 vs (i + 1)) as [vb Hvb]; [lia|].
  destruct (Qlt_le_dec t a) as [Hta|Hat].
  - left. eapply v_body_left; eassumption.
  - destruct (Qlt_le_dec t b) as [Htb|Hbt].
    + right. eexists. eapply v_body_hit; eassumption.
    + left. eapply v_body_right; eassumption.
Qed.

Lemma v_last_at (a b va vb : Q) :
  ts !! (length ts - 2) = Some a -> ts !! (length ts - 1) = Some b ->
  vs !! (length ts - 2) = Some va -> vs !! (length ts - 1) = Some vb ->
  2 <= length ts ->
  v_last tab = ok (Fin ((vb - va) / (b - a))).
Proof.
  intros Ha Hb Hva Hvb H2. unfold v_last, tab, py_index_neg. simpl.
  rewrite !Hlen.
  rewrite !decide_True by lia.
  unfold py_index. rewrite Ha, Hb, Hva, Hvb. simpl.
  rewrite np_div_fin; [reflexivity|].
  assert (a < b)%Q; [|lra].
  apply (Hinc (length ts - 2)); [exact Ha|].
  replace (length ts - 2 + 1) with (length ts - 1) by lia. exact Hb.
Qed.

Lemma v_table_unfold (t : Q) :
  v_table tab t =
    for_return (v_body tab t) (range (length ts - 1)) (v_last tab).
Proof. reflexivity. Qed.

(** Inside an interval the loop returns at that interval. *)
Lemma v_table_inside (t : Q) (i : nat) (a b va vb : Q) :
  ts !! i = Some a -> ts !! (i + 1) = Some b ->
  vs !! i = Some va -> vs !! (i + 1) = Some vb ->
  (a <= t)%Q -> (t < b)%Q ->
  v_table tab t = ok (Fin ((vb - va) / (b - a))).
Proof.
  intros Ha Hb Hva Hvb Hat Htb. rewrite v_table_unfold.
  assert (Hi : i + 1 < length ts) by (eapply lookup_lt_Some, Hb).
  rewrite (range_split (length ts - 1) i) by lia.
  rewrite for_return_skip.
  - cbn [for_return].
    rewrite (v_body_hit t i a b va vb) by assumption. reflexivity.
  - apply Forall_forall. intros j Hj.
    apply list_elem_of_In, in_seq in Hj.
    destruct (lookup_lt_is_Some_2 ts (j + 1)) as [c Hc]; [lia|].
    apply (v_body_right t j c); [lia | exact Hc |].
    assert (c <= a)%Q; [|lra].
    apply (increasing_le ts (j + 1) i); auto. lia.
Qed.

(** Below the first breakpoint and from the last one on, no interval
    matches and the loop falls through. *)
Lemma v_table_below (t : Q) (a0 : Q) :
  ts !! 0 = Some a0 -> (t < a0)%Q -> v_table tab t = v_last tab.
Proof.
  intros H0 Ht. rewrite v_table_unfold.
  apply for_return_all_skip, Forall_forall. intros j Hj.
  apply list_elem_of_In, in_seq in Hj.
  destruct (lookup_lt_is_Some_2 ts j) as [c Hc]; [lia|].
  apply (v_body_left t j c Hc).
  assert (a0 <= c)%Q; [|lra].
  apply (increasing_le ts 0 j); auto. lia.
Qed.

Lemma v_table_beyond (t : Q) (b : Q) :
  ts !! (length ts - 1) = Some b -> (b <= t)%Q -> v_table tab t = v_last tab.
Proof.
  intros Hb Ht. rewrite v_table_unfold.
  apply for_return_all_skip, Forall_forall. intros j Hj.
  apply list_elem_of_In, in_seq in Hj.
  destruct (lookup_lt_is_Some_2 ts (j + 1)) as [c Hc]; [lia|].
  apply (v_body_right t j c); [lia | exact Hc |].
  assert (c <= b)%Q; [|lra].
  apply (increasing_le ts (j + 1) (length ts - 1)); auto. lia.
Qed.

Lemma v_table_total (t : Q) :
  2 <= length ts -> exists q, v_table tab t = ok (Fin q).
Proof.
  intros H2. rewrite v_table_unfold.
  assert (Hall : Forall (fun i => i + 1 < length ts) (range (length ts - 1))).
  { eapply Forall_impl; [apply (seq_Forall_lt _ _ (length ts - 1)); lia|].
    simpl. intros; lia. }
  induction Hall as [|i xs Hi _ IH]; cbn [for_return].
  - destruct (lookup_lt_is_Some_2 ts (length ts - 2)) as [a Ha]; [lia|].
    destruct (lookup_lt_is_Some_2 ts (length ts - 1)) as [b Hb]; [lia|].
    destruct (lookup_lt_is_Some_2 vs (length ts - 2)) as [va Hva]; [lia|].
    destruct (lookup_lt_is_Some_2 vs (length ts - 1)) as [vb Hvb]; [lia|].
    eexists. eapply v_last_at; eassumption.
  - destruct (v_body_total t i Hi) as [-> | [q ->]]; simpl; eauto.
Qed.

End WallTable.

(** ** The wall velocity on the table of the script *)

Lemma V_t_rows : V_t = [V_times; V_volumes].
Proof. reflexivity. Qed.

Lemma V_lengths : length V_volumes = length V_times.
Proof. reflexivity. Qed.

Lemma V_times_increasing : strictly_increasing V_times.
Proof. apply increasingb_spec. vm_compute. reflexivity. Qed.

Lemma n_breakpoints_length : n_breakpoints = length V_times.
Proof. reflexivity. Qed.

Lemma breakpoint_lookup (i : nat) : breakpoint i = V_times !! i.
Proof. reflexivity. Qed.

Lemma volume_lookup (i : nat) : volume i = V_volumes !! i.
Proof. reflexivity. Qed.

Lemma interval_velocity_inv (i : nat) (d : Q) :
  interval_velocity i = Some d ->
  exists a b va vb,
    V_times !! i = Some a /\ V_times !! (i + 1) = Some b /\
    V_volumes !! i = Some va /\ V_volumes !! (i + 1) = Some vb /\
    d = ((vb - va) / (b - a))%Q.
Proof.
  unfold interval_velocity. rewrite !breakpoint_lookup, !volume_lookup.
  intros H.
  destruct (V_times !! i) as [a|]; [|discriminate].
  destruct (V_times !! (i + 1)) as [b|]; [|discriminate].
  destruct (V_volumes !! i) as [va|]; [|discriminate].
  destruct (V_volumes !! (i + 1)) as [vb|]; [|discriminate].
  simpl in H. injection H as <-. eauto 10.
Qed.

Lemma v_inside (t : Q) (i : nat) (a b d : Q) :
  breakpoint i = Some a -> breakpoint (i + 1) = Some b ->
  interval_velocity i = Some d ->
  (a <= t)%Q -> (t < b)%Q ->
  v t = ok (Fin d).
Proof.
  rewrite !breakpoint_lookup. intros Ha Hb Hd Hat Htb.
  apply interval_velocity_inv in Hd.
  destruct Hd as (a' & b' & va & vb & Ha' & Hb' & Hva & Hvb & ->).
  rewrite Ha in Ha'. injection Ha' as <-.
  rewrite Hb in Hb'. injection Hb' as <-.
  unfold v. rewrite V_t_rows.
  apply (v_table_inside V_times V_volumes V_lengths V_times_increasing t i);
    assumption.
Qed.

(** When no interval matches, [v] returns the quotient of the final
    interval. *)
Lemma v_fall_through (d : Q) :
  interval_velocity (n_breakpoints - 2) = Some d ->
  v_last V_t = ok (Fin d).
Proof.
  intros Hd. apply interval_velocity_inv in Hd.
  destruct Hd as (a & b & va & vb & Ha & Hb & Hva & Hvb & ->).
  rewrite V_t_rows.
  apply (v_last_at V_times V_volumes V_lengths V_times_increasing);
    try assumption.
  vm_compute. lia.
Qed.

Lemma v_below (t t0 d : Q) :
  breakpoint 0 = Some t0 -> (t < t0)%Q ->
  interval_velocity (n_breakpoints - 2) = Some d ->
  v t = ok (Fin d).
Proof.
  rewrite breakpoint_lookup. intros H0 Ht Hd.
  rewrite <- (v_fall_through d Hd). unfold v. rewrite V_t_rows.
  eapply (v_table_below V_times V_volumes V_lengths V_times_increasing); eassumption.
Qed.

Lemma v_beyond (t b d : Q) :
  breakpoint (n_breakpoints - 1) = Some b -> (b <= t)%Q ->
  interval_velocity (n_breakpoints - 2) = Some d ->
  v t = ok (Fin d).
Proof.
  rewrite breakpoint_lookup. intros Hb Ht Hd.
  rewrite <- (v_fall_through d Hd). unfold v. rewrite V_t_rows.
  eapply (v_table_beyond V_times V_volumes V_lengths V_times_increasing); eassumption.
Qed.

Lemma v_total (t : Q) : exists q, v t = ok (Fin q).
Proof.
  unfold v. rewrite V_t_rows.
  apply (v_table_total V_times V_volumes V_lengths V_times_increasing).
  vm_compute. lia.
Qed.

Lemma last_velocity_nonzero (d : Q) :
  interval_velocity (n_breakpoints - 2) = Some d -> ~ (d == 0)%Q.
Proof.
  intros H. vm_compute in H. injection H as <-. discriminate.
Qed.

Lemma first_last_velocity_differ (d0 d : Q) :
  interval_velocity 0 = Some d0 ->
  interval_velocity (n_breakpoints - 2) = Some d ->
  ~ (d == d0)%Q.
Proof.
  intros H0 H. vm_compute in H0, H.
  injection H0 as <-. injection H as <-. discriminate.
Qed.

(** ** The shared gas object of run_cal_real *)

Lemma normalise_pure (k : string) : normalise {[ k := 1%Q ]} = {[ k := 1%Q ]}.
Proof.
  unfold normalise. rewrite map_fold_singleton, map_fmap_singleton.
  reflexivity.
Qed.

Lemma set_X_pure (h : store) (gas : loc) (g : Solution) (k : string) :
  h !! gas = Some g -> str_in k (sol_species g) = true ->
  set_X h gas {[ k := 1%Q ]} =
    ok (<[gas := mkSolution (sol_species g) (sol_T g) (sol_D g) {[ k := 1%Q ]}]> h).
Proof.
  intros Hg Hk. unfold set_X. rewrite Hg.
  rewrite map_to_list_singleton. simpl. rewrite Hk. simpl.
  rewrite normalise_pure. reflexivity.
Qed.

Lemma run_cal_real_setup_spec (h : store) (gas : loc) (g : Solution) :
  h !! gas = Some g -> str_in "H2" (sol_species g) = true ->
  let g' := mkSolution (sol_species g) (sol_T g) (sol_D g) {[ "H2" := 1%Q ]} in
  run_cal_real_setup h gas =
    ok (mkReactor gas g 1, gas, mkReactor gas g' 1, <[gas := g']> h).
Proof.
  intros Hg HH2 g'. unfold run_cal_real_setup, Reactor_new.
  rewrite Hg. simpl.
  rewrite (set_X_pure h gas g "H2" Hg HH2). simpl.
  rewrite lookup_insert_eq. reflexivity.
Qed.

(** ** The advance loop *)

Section AdvanceLoop.

Context {ReactorNet : Type}.
Variable net_step : ReactorNet -> Q * ReactorNet.
Variable net_thermo : ReactorNet -> Reactor -> ThermoState.

Variable r : Reactor.
Variable end_time : Q.
Variable print_step : Z.
Variable net0 : ReactorNet.

Hypothesis print_step_nonzero : print_step <> 0%Z.

Abbreviation advance' := (advance net_step net_thermo).
Abbreviation t_at := (t_after net_step net0).
Abbreviation net_at := (fun k => net_after net_step k net0).

(** One turn from the state after [j] turns leads to the state after
    [j + 1] turns. *)
Lemma advance_body_next (j : nat) (hist : SolutionArray) :
  exists hist',
    advance_body net_step net_thermo r print_step
      (mkLoopState (t_at j) (1 + Z.of_nat j) hist (net_at j)) =
    ok (mkLoopState (t_at (S j)) (1 + Z.of_nat (S j)) hist'
          (net_at (S j))).
Proof.
  unfold advance_body, py_mod. simpl.
  destruct (net_step (net_after net_step j net0)) as [t net] eqn:E.
  destruct (Z.eqb_spec print_step 0) as [Hz|_]; [contradiction|].
  simpl. eexists. f_equal.
  unfold step_time. rewrite E. simpl.
  replace (1 + Z.of_nat j + 1)%Z with (1 + Z.of_nat (S j))%Z by lia.
  reflexivity.
Qed.

(** If some step within the next [d] reaches [end_time], the loop
    started after [j] turns leaves after [k] turns in all, for some [k]
    within [d] of [j]. *)
Lemma advance_from (d j : nat) (hist : SolutionArray) :
  (end_time <= t_at (j + d))%Q ->
  (forall i, i < j -> (t_at i < end_time)%Q) ->
  exists k hist',
    j <= k <= j + d /\
    (forall fuel, k - j <= fuel ->
       advance' fuel r end_time print_step
         (mkLoopState (t_at j) (1 + Z.of_nat j) hist (net_at j)) =
       Some (ok (mkLoopState (t_at k) (1 + Z.of_nat k) hist'
                   (net_at k)))) /\
    (end_time <= t_at k)%Q /\
    (forall i, i < k -> (t_at i < end_time)%Q).
Proof.
  revert j hist. induction d as [|d IH]; intros j hist Hreach Hbefore.
  - exists j, hist. rewrite Nat.add_0_r in Hreach.
    split; [lia|]. split; [|auto].
    apply Qltb_ge in Hreach.
    intros fuel _. destruct fuel; cbn [advance ls_t]; rewrite Hreach;
      reflexivity.
  - destruct (Qltb (t_at j) end_time) eqn:E.
    + destruct (advance_body_next j hist) as [hist1 Hbody].
      destruct (IH (S j) hist1) as (k & hist' & Hk & Hrun & Hexit & Hlt).
      { replace (S j + d) with (j + S d) by lia. exact Hreach. }
      { intros i Hi. destruct (decide (i = j)) as [->|Hne].
        - apply Qltb_lt, E.
        - apply Hbefore. lia. }
      exists k, hist'. split; [lia|]. split; [|auto].
      intros [|fuel] Hfuel; [lia|].
      cbn [advance ls_t]. rewrite E, Hbody.
      apply Hrun. lia.
    + exists j, hist. split; [lia|].
      split; [|split; [apply Qltb_ge, E | exact Hbefore]].
      intros fuel _.
      destruct fuel; cbn [advance ls_t]; rewrite E; reflexivity.
Qed.

Lemma step_time_mono (i j : nat) :
  steps_increase net_step net0 -> i <= j ->
  (step_time net_step net0 i <= step_time net_step net0 j)%Q.
Proof.
  intros Hinc Hij. induction Hij as [|j _ IH]; [apply Qle_refl|].
  specialize (Hinc j). lra.
Qed.

Lemma advance_exits (hist0 : SolutionArray) :
  steps_unbounded net_step net0 ->
  exists k hist,
    (forall fuel, k <= fuel ->
       advance' fuel r end_time print_step
         (mkLoopState 0 1 hist0 net0) =
       Some (ok (mkLoopState (t_at k) (1 + Z.of_nat k) hist
                   (net_at k)))) /\
    (end_time <= t_at k)%Q /\
    (forall i, i < k -> (t_at i < end_time)%Q).
Proof.
  intros Hunb. destruct (Hunb end_time) as [n Hn].
  destruct (advance_from (S n) 0 hist0) as (k & hist & Hk & Hrun & Hexit & Hlt).
  - exact Hn.
  - intros i Hi. lia.
  - exists k, hist. split; [|auto].
    intros fuel Hfuel. apply (Hrun fuel). lia.
Qed.

End AdvanceLoop.

(** The loop always comes to an end: it leaves normally with the time at
    or beyond [end_time], or, when [print_step] is zero and a first turn
    is taken, it raises at [counter % print_step]. *)
Lemma advance_outcome {ReactorNet : Type}
    (net_step : ReactorNet -> Q * ReactorNet)
    (net_thermo : ReactorNet -> Reactor -> ThermoState)
    (r : Reactor) (end_time : Q) (print_step : Z)
    (hist0 : SolutionArray) (net0 : ReactorNet) :
  steps_unbounded net_step net0 ->
  exists k outcome,
    (forall fuel, k <= fuel ->
       advance net_step net_thermo fuel r end_time print_step
         (mkLoopState 0 1 hist0 net0) = Some outcome) /\
    (print_step <> 0%Z ->
       exists hist,
         outcome = ok (mkLoopState (t_after net_step net0 k) (1 + Z.of_nat k)
                         hist (net_after net_step k net0))) /\
    (forall s, outcome = ok s -> (end_time <= ls_t s)%Q) /\
    (forall e, outcome = raise e -> e = ZeroDivisionError /\ print_step = 0%Z) /\
    (forall i, i < k -> (t_after net_step net0 i < end_time)%Q).
Proof.
  intros Hunb. destruct (Z.eq_dec print_step 0) as [->|Hps].
  - destruct (Qltb 0 end_time) eqn:E.
    + exists 1, (raise ZeroDivisionError).
      split; [|split; [congruence|split; [discriminate|split]]].
      * intros [|fuel] Hfuel; [lia|]. cbn [advance ls_t]. rewrite E.
        unfold advance_body. cbn [ls_net ls_counter].
        destruct (net_step net0). reflexivity.
      * intros e He. injection He as <-. auto.
      * intros i Hi. replace i with 0 by lia. apply Qltb_lt, E.
    + exists 0, (ok (mkLoopState 0%Q 1%Z hist0 net0)).
      split; [|split; [congruence|split; [|split]]].
      * intros fuel _. destruct fuel; cbn [advance ls_t]; rewrite E;
          reflexivity.
      * intros s Hs. injection Hs as <-. apply Qltb_ge, E.
      * discriminate.
      * intros i Hi. lia.
  - destruct (advance_exits net_step net_thermo r end_time print_step net0
                Hps hist0 Hunb) as (k & hist & Hrun & Hexit & Hlt).
    eexists k, _. split; [exact Hrun|].
    split; [eauto|]. split; [|split; [discriminate | exact Hlt]].
    intros s Hs. injection Hs as <-. exact Hexit.
Qed.

(** ** The runners come to an end *)

Section RunnersReturn.

Context {ReactorNet : Type}.
Variable ReactorNet_new : list Reactor -> list Wall -> ReactorNet.
Variable net_step : ReactorNet -> Q * ReactorNet.
Variable net_thermo : ReactorNet -> Reactor -> ThermoState.

Variables (h : store) (gas : loc).
Variables (end_time : Q) (print_step : Z).

Hypothesis solver_unbounded : forall net, steps_unbounded net_step net.

Lemma run_cal_ideal_terminates :
  exists fuel out,
    run_cal_ideal ReactorNet_new net_step net_thermo
      fuel h gas end_time print_step = Some out /\
    (print_step <> 0%Z -> forall g, h !! gas = Some g ->
     exists res, out = ok res).
Proof.
  unfold run_cal_ideal, Reactor_new, SolutionArray_new.
  destruct (h !! gas) as [g|] eqn:Hg; simpl.
  - destruct (advance_outcome net_step net_thermo (mkReactor gas g 1)
                end_time print_step (mkSolutionArray (sol_species g) [])
                (ReactorNet_new [mkReactor gas g 1] [])
                (solver_unbounded _))
      as (k & outcome & Hrun & Hok & _).
    exists k. rewrite (Hrun k) by lia. destruct outcome as [s|e].
    + destruct (get_IDT_slope_total (ls_timeHistory s) "T") as [idt ->];
        [left; reflexivity|].
      simpl. eauto.
    + exists (raise e). split; [reflexivity|].
      intros Hps _ _. destruct (Hok Hps) as [hist Habs]. discriminate Habs.
  - exists 0, (raise CanteraError). split; [reflexivity|].
    intros _ g Habs. discriminate Habs.
Qed.

Lemma run_cal_real_terminates :
  exists fuel out,
    run_cal_real ReactorNet_new net_step net_thermo
      fuel h gas end_time print_step = Some out /\
    (print_step <> 0%Z -> forall g, h !! gas = Some g ->
     str_in "H2" (sol_species g) = true ->
     exists res, out = ok res).
Proof.
  unfold run_cal_real.
  destruct (run_cal_real_setup h gas) as [[[[r1 gas2] r2] h']|e] eqn:Hsetup;
    simpl.
  - destruct (SolutionArray_new h' gas) as [hist0|e] eqn:Hnew; simpl.
    + destruct (advance_outcome net_step net_thermo r1 end_time print_step
                  hist0 (ReactorNet_new [r1; r2] [mkWall r1 r2 v])
                  (solver_unbounded _))
        as (k & outcome & Hrun & Hok & _).
      exists k. rewrite (Hrun k) by lia. destruct outcome as [s|e].
      * destruct (get_IDT_slope_total (ls_timeHistory s) "T") as [idt ->];
          [left; reflexivity|].
        simpl. eauto.
      * exists (raise e). split; [reflexivity|].
        intros Hps _ _ _. destruct (Hok Hps) as [hist Habs].
        discriminate Habs.
    + exists 0, (raise e). split; [reflexivity|].
      intros _ g Hg HH2.
      rewrite (run_cal_real_setup_spec h gas g Hg HH2) in Hsetup.
      simpl in Hsetup. injection Hsetup as <- <- <- <-.
      unfold SolutionArray_new in Hnew. rewrite lookup_insert_eq in Hnew.
      discriminate Hnew.
  - exists 0, (raise e). split; [reflexivity|].
    intros _ g Hg HH2.
    rewrite (run_cal_real_setup_spec h gas g Hg HH2) in Hsetup.
    discriminate Hsetup.
Qed.

End RunnersReturn.

(** ** The solver stub meets the precondition *)

Lemma stub_net_after (k n : nat) : net_after stub_step k n = k + n.
Proof.
  unfold net_after. induction k as [|k IH]; [reflexivity|].
  change (S (Nat.iter k (fun x => (stub_step x).2) n) = S (k + n)).
  rewrite IH. reflexivity.
Qed.

Lemma stub_step_time (n k : nat) :
  step_time stub_step n k = stub_time (S (k + n)).
Proof.
  unfold step_time. rewrite stub_net_after. reflexivity.
Qed.

Lemma stub_time_lt (m n : nat) : m < n -> (stub_time m < stub_time n)%Q.
Proof.
  intros H. unfold stub_time.
  assert (inject_Z (Z.of_nat m) < inject_Z (Z.of_nat n))%Q
    by (rewrite <- Zlt_Qlt; lia).
  lra.
Qed.

Lemma stub_increase (n : nat) : steps_increase stub_step n.
Proof.
  intros k. rewrite !stub_step_time. apply stub_time_lt. lia.
Qed.

Lemma stub_unbounded (n : nat) : steps_unbounded stub_step n.
Proof.
  intros bound. set (c := Qceiling (bound * 10000)).
  exists (Z.to_nat c).
  rewrite stub_step_time. unfold stub_time.
  pose proof (Qle_ceiling (bound * 10000)) as Hc. fold c in Hc.
  assert (inject_Z c <= inject_Z (Z.of_nat (S (Z.to_nat c + n))))%Q
    by (rewrite <- Zle_Qle; lia).
  lra.
Qed.

Lemma stub_solver (n : nat) :
  steps_increase stub_step n /\ steps_unbounded stub_step n.
Proof.
  split; [apply stub_increase | apply stub_unbounded].
Qed.

(** ** Facts about the sample histories *)

Lemma spike_first_max :
  first_max_slope_fl quot_f64 (sa_t history_spike)
    (signal_column history_spike "T") 1 (quot_f64 1501 301 2 1).
Proof.
  split; [reflexivity|]. split.
  - intros j sj Hj. pose proof (slope_fl_lt _ _ _ _ _ Hj) as Hlt.
    destruct j as [|[|[|j]]]; [| | |simpl in Hlt; lia];
      vm_compute in Hj; injection Hj as <-; reflexivity.
  - intros j sj Hlt Hj. destruct j as [|j]; [|lia].
    vm_compute in Hj. injection Hj as <-. right. reflexivity.
Qed.

Lemma falling_first_max :
  first_max_slope (sa_t history_falling) (signal_column history_falling "T") 0
    (Fin (-2)).
Proof.
  split; [reflexivity|]. split.
  - intros j sj Hj. pose proof (slope_ok_lt _ _ _ _ Hj) as Hlt.
    destruct j as [|j]; [|simpl in Hlt; lia].
    vm_compute in Hj. injection Hj as <-. reflexivity.
  - intros j sj Hlt. lia.
Qed.

Lemma falling_no_rise (j : nat) (sj : npfloat) :
  slope (sa_t history_falling) (signal_column history_falling "T") j = ok sj ->
  np_gt sj (Fin 0) = false.
Proof.
  intros Hj. pose proof (slope_ok_lt _ _ _ _ Hj) as Hlt.
  destruct j as [|j]; [|simpl in Hlt; lia].
  vm_compute in Hj. injection Hj as <-. reflexivity.
Qed.

Lemma ramp_no_steeper (j : nat) (sj : npfloat) :
  slope_fl quot_f64 (sa_t history_ramp) (signal_column history_ramp "t") j
    = ok sj ->
  np_gt sj (quot_f64 500 400 2 1) = false.
Proof.
  intros Hj. pose proof (slope_fl_lt _ _ _ _ _ Hj) as Hlt.
  destruct j as [|[|j]]; [| |simpl in Hlt; lia];
    vm_compute in Hj; injection Hj as <-; reflexivity.
Qed.

(** * The claims *)

(** ** get_IDT *)

(** C1, as amended.  For signal 'T' or 'P' in any case, the slopes being
    the doubles that line 32 computes, [(y[i+1]-y[i])/(t[i+1]-t[i])] with
    its roundings, inf and nan included: when the largest computed slope
    is strictly positive, [get_IDT] returns the time of the sample that
    precedes the first consecutive pair attaining it, that is, the pair
    [k] such that no computed slope is greater than its own and every
    earlier one is smaller or nan.  In particular, when the computed slope
    of the first pair is positive and no computed slope is greater, as on
    a ramp whose computed slopes are all equal, the time of the first
    sample is returned.  This holds whatever the arithmetic of line 32
    yields. *)
Theorem get_IDT_first_max_slope :
  forall (quot : Q -> Q -> Q -> Q -> npfloat) (a : SolutionArray)
         (signal : string),
    selects_TP signal ->
    (forall (k : nat) (sk : npfloat) (tk : Q),
        first_max_slope_fl quot (sa_t a) (signal_column a signal) k sk ->
        np_gt sk (Fin 0) = true ->
        sa_t a !! k = Some tk ->
        get_IDT_fl quot a signal = ok tk) /\
    (forall (s0 : npfloat) (t0 : Q),
        slope_fl quot (sa_t a) (signal_column a signal) 0 = ok s0 ->
        np_gt s0 (Fin 0) = true ->
        (forall j sj,
           slope_fl quot (sa_t a) (signal_column a signal) j = ok sj ->
           np_gt sj s0 = false) ->
        sa_t a !! 0 = Some t0 ->
        get_IDT_fl quot a signal = ok t0).
Proof.
  intros quot a signal Hsig. split.
  - intros k sk tk. apply get_IDT_fl_first_max, Hsig.
  - intros s0 t0. apply get_IDT_fl_first_pair, Hsig.
Qed.

Lemma get_IDT_first_max_slope_witness :
  get_IDT_fl quot_f64 history_spike "T" = ok 1%Q /\
  get_IDT_fl quot_f64 history_ramp "t" = ok 1%Q.
Proof.
  split.
  - apply (proj1 (get_IDT_first_max_slope quot_f64 history_spike "T"
                    (or_introl eq_refl)) 1 (quot_f64 1501 301 2 1) 1%Q).
    + exact spike_first_max.
    + reflexivity.
    + reflexivity.
  - apply (proj2 (get_IDT_first_max_slope quot_f64 history_ramp "t"
                    (or_intror (or_introl eq_refl)))
             (quot_f64 500 400 2 1) 1%Q).
    + reflexivity.
    + reflexivity.
    + exact ramp_no_steeper.
    + reflexivity.
Defined.

(** Rounding moves the result on a ramp.  The three temperatures of
    [history_ramp_rounded] lie on one line, as doubles too, so that in
    exact arithmetic both slopes are equal and the first sample wins; in
    binary64 the second quotient comes out one unit in the last place above
    the first, and the time of the second sample is returned. *)
Example get_IDT_ramp_rounded :
  (exists d0 d1 d2,
     ramp_rounded_values = [Fin d0; Fin d1; Fin d2] /\
     ((d2 - d1) * (1 - 0) == (d1 - d0) * (4 - 1))%Q) /\
  get_IDT_fl quot_exact history_ramp_rounded "T" = ok 0%Q /\
  np_gt (quot_f64 3080.8 995.2 4 1) (quot_f64 995.2 300 1 0) = true /\
  get_IDT_fl quot_f64 history_ramp_rounded "T" = ok 1%Q.
Proof.
  split.
  - do 3 eexists. split; [vm_compute; reflexivity|]. vm_compute. reflexivity.
  - split; [reflexivity|]. split; reflexivity.
Qed.

(** On even steps of a tenth the two computed slopes differ as well:
    [(330 - 320) / (0.3 - 0.2)] exceeds [(320 - 310) / (0.2 - 0.1)]. *)
Example get_IDT_tenths :
  get_IDT_fl quot_exact history_tenths "T" = ok 0.1%Q /\
  get_IDT_fl quot_f64 history_tenths "T" = ok 0.2%Q.
Proof. split; reflexivity. Qed.

(** C1 as stated fails when no slope is positive: on two samples with a
    falling temperature the largest (and only) slope is at the pair that
    starts at time 1, and [get_IDT] returns 0. *)
Lemma get_IDT_falling_counterexample :
  2 <= length (sa_rows history_falling) /\
  first_max_slope (sa_t history_falling) (signal_column history_falling "T") 0
    (Fin (-2)) /\
  sa_t history_falling !! 0 = Some 1%Q /\
  get_IDT history_falling "T" = ok 0%Q /\
  get_IDT history_falling "T" <> ok 1%Q.
Proof.
  split; [simpl; lia|].
  split; [exact falling_first_max|].
  split; [reflexivity|].
  split; [reflexivity|].
  vm_compute. discriminate.
Qed.

(** The same history in binary64: the only computed slope is -2. *)
Example get_IDT_falling_rounded :
  (exists q,
     slope_fl quot_f64 (sa_t history_falling)
       (signal_column history_falling "T") 0 = ok (Fin q) /\
     (q == -2)%Q) /\
  get_IDT_fl quot_f64 history_falling "T" = ok 0%Q.
Proof.
  split; [|reflexivity].
  eexists. split; [vm_compute; reflexivity|]. vm_compute. reflexivity.
Qed.

(** C4, as amended.  With fewer than two samples and signal 'T' or 'P',
    the loop body is never entered: no division takes place and
    [get_IDT] returns the default 0. *)
Theorem get_IDT_short_history :
  forall (a : SolutionArray) (signal : string),
    selects_TP signal ->
    length (sa_rows a) < 2 ->
    get_IDT a signal = ok 0%Q.
Proof.
  intros a signal. apply get_IDT_short.
Qed.

Lemma get_IDT_short_history_witness :
  get_IDT history_single "P" = ok 0%Q /\ get_IDT (history_of []) "t" = ok 0%Q.
Proof.
  split.
  - apply (get_IDT_short_history history_single "P").
    + right. right. left. reflexivity.
    + simpl. lia.
  - apply (get_IDT_short_history (history_of []) "t").
    + right. left. reflexivity.
    + simpl. lia.
Defined.

(** C4 as stated fails: on a history with a single sample [get_IDT]
    returns 0 and raises nothing. *)
Lemma get_IDT_single_sample_counterexample :
  length (sa_rows history_single) < 2 /\
  get_IDT history_single "T" = ok 0%Q /\
  ~ (exists e, get_IDT history_single "T" = raise e).
Proof.
  split; [simpl; lia|].
  split; [reflexivity|].
  intros [e He]. vm_compute in He. discriminate He.
Qed.

(** C6.  For signal 'T' or 'P', when no forward slope is positive,
    [get_IDT] returns the default 0, as a plain value.  This is the case
    of a signal that never rises over strictly increasing times. *)
Theorem get_IDT_no_positive_slope :
  forall (a : SolutionArray) (signal : string),
    selects_TP signal ->
    ((forall j sj, slope (sa_t a) (signal_column a signal) j = ok sj ->
        np_gt sj (Fin 0) = false) ->
     get_IDT a signal = ok 0%Q) /\
    (strictly_increasing (sa_t a) ->
     (forall i y0 y1,
        signal_column a signal !! i = Some y0 ->
        signal_column a signal !! (i + 1) = Some y1 -> (y1 <= y0)%Q) ->
     get_IDT a signal = ok 0%Q).
Proof.
  intros a signal Hsig. split.
  - apply get_IDT_no_rise, Hsig.
  - intros Hinc Hfall. apply get_IDT_no_rise; [exact Hsig|].
    intros j sj. apply non_increasing_no_rise; assumption.
Qed.

Lemma get_IDT_no_positive_slope_witness :
  get_IDT history_falling "T" = ok 0%Q /\ get_IDT history_falling "p" = ok 0%Q.
Proof.
  split.
  - apply (proj1 (get_IDT_no_positive_slope history_falling "T"
                    (or_introl eq_refl))).
    exact falling_no_rise.
  - apply (proj2 (get_IDT_no_positive_slope history_falling "p"
                    (or_intror (or_intror (or_intror eq_refl))))).
    + apply increasingb_spec. reflexivity.
    + intros i y0 y1 H0 H1.
      destruct i as [|[|i]]; simpl in H0, H1; try discriminate.
      injection H0 as <-. injection H1 as <-. apply Qle_refl.
Defined.

(** On a species, an empty history raises; a name is looked up without
    regard to case. *)
Example get_IDT_species_empty :
  get_IDT (history_of []) "OH" = raise ValueError.
Proof. reflexivity. Qed.

Example get_IDT_species_lower_case :
  get_IDT history_spike "oh" = ok 1%Q /\ get_IDT history_spike "OH" = ok 1%Q.
Proof. split; reflexivity. Qed.

Lemma oh_not_TP : ~ selects_TP "oh".
Proof. intros [H|[H|[H|H]]]; discriminate H. Qed.

Lemma CH4_not_TP : ~ selects_TP "CH4".
Proof. intros [H|[H|[H|H]]]; discriminate H. Qed.

(** C7, as amended.  For a signal other than 'T' and 'P' (in any case):
    when the name stands for a species of the phase, as written or, failing
    that, as the one species that equals it without regard to case, and the
    history is not empty, [get_IDT] returns the time of the sample at the
    first index where that species' mass fraction is maximal over the whole
    history; when the name stands for no species, the call raises. *)
Theorem get_IDT_species_argmax :
  forall (a : SolutionArray) (signal : string),
    ~ selects_TP signal ->
    (forall name,
        sa_rows a <> [] ->
        species_lookup (sa_species a) signal = Some name ->
        exists Y k tk,
          Y = (fun s => s_Y s name) <$> sa_rows a /\
          sa_call_Y a signal = ok Y /\ first_argmax Y k /\
          sa_t a !! k = Some tk /\ get_IDT a signal = ok tk) /\
    (species_lookup (sa_species a) signal = None ->
     exists e, get_IDT a signal = raise e).
Proof.
  intros a signal Hsig. split.
  - intros name. apply get_IDT_species, Hsig.
  - intros Hnone. exists NoSuchSpecies.
    apply get_IDT_no_species; assumption.
Qed.

Lemma get_IDT_species_argmax_witness :
  (exists Y k tk,
     Y = (fun s => s_Y s "OH") <$> sa_rows history_spike /\
     sa_call_Y history_spike "oh" = ok Y /\ first_argmax Y k /\
     sa_t history_spike !! k = Some tk /\ get_IDT history_spike "oh" = ok tk) /\
  (exists e, get_IDT history_spike "CH4" = raise e).
Proof.
  split.
  - apply (proj1 (get_IDT_species_argmax history_spike "oh" oh_not_TP) "OH").
    + discriminate.
    + reflexivity.
  - apply (proj2 (get_IDT_species_argmax history_spike "CH4" CH4_not_TP)).
    reflexivity.
Defined.

(** C7 as stated fails for a name that is no species of the phase: on a
    non-empty history whose phase has the species H2, O2 and OH, the signal
    'CH4' is not 'T' or 'P', and [get_IDT] raises instead of returning a
    time. *)
Lemma get_IDT_unknown_species_counterexample :
  sa_rows history_spike <> [] /\
  ~ selects_TP "CH4" /\
  species_lookup (sa_species history_spike) "CH4" = None /\
  (exists e, get_IDT history_spike "CH4" = raise e) /\
  (forall r, get_IDT history_spike "CH4" <> ok r).
Proof.
  split; [discriminate|].
  split; [exact CH4_not_TP|].
  split; [reflexivity|].
  split; [eexists; reflexivity|].
  intros r H. vm_compute in H. discriminate H.
Qed.

(** C9.  When all sample times are non-negative, every value returned by
    [get_IDT] is non-negative, whatever the signal; on 'T' and 'P' a value
    is always returned. *)
Theorem get_IDT_nonnegative :
  forall (a : SolutionArray) (signal : string),
    Forall (fun x => (0 <= x)%Q) (sa_t a) ->
    (forall r, get_IDT a signal = ok r -> (0 <= r)%Q) /\
    (selects_TP signal -> exists r, get_IDT a signal = ok r /\ (0 <= r)%Q).
Proof.
  intros a signal Hpos.
  assert (Hres : forall r, get_IDT a signal = ok r -> (0 <= r)%Q).
  { intros r Hr. apply get_IDT_elem in Hr. destruct Hr as [-> | Hr].
    - apply Qle_refl.
    - rewrite Forall_forall in Hpos. apply Hpos, Hr. }
  split; [exact Hres|].
  intros Hsig. destruct (get_IDT_slope_total a signal Hsig) as [r Hr].
  exists r. split; [exact Hr | apply Hres, Hr].
Qed.

Lemma get_IDT_nonnegative_witness :
  (forall r, get_IDT history_spike "T" = ok r -> (0 <= r)%Q) /\
  (exists r, get_IDT history_spike "T" = ok r /\ (0 <= r)%Q).
Proof.
  destruct (get_IDT_nonnegative history_spike "T") as [Hall Hsome].
  - repeat constructor; discriminate.
  - split; [exact Hall|]. apply Hsome. left. reflexivity.
Defined.

(** ** The wall velocity *)

(** C2.  At a breakpoint [t0] that is not the last one, and at every
    time of the interval from [t0] (included) to the next breakpoint
    (excluded), [v] returns the discrete derivative of that interval. *)
Theorem v_at_breakpoint :
  forall (i : nat) (t0 t1 d : Q),
    breakpoint i = Some t0 ->
    breakpoint (i + 1) = Some t1 ->
    interval_velocity i = Some d ->
    v t0 = ok (Fin d) /\
    (forall t, (t0 <= t)%Q -> (t < t1)%Q -> v t = ok (Fin d)).
Proof.
  intros i t0 t1 d H0 H1 Hd.
  assert (Hlt : (t0 < t1)%Q).
  { apply (V_times_increasing i); rewrite <- breakpoint_lookup; assumption. }
  split.
  - apply (v_inside t0 i t0 t1 d H0 H1 Hd); [apply Qle_refl | exact Hlt].
  - intros t Ht0 Ht1. apply (v_inside t i t0 t1 d H0 H1 Hd Ht0 Ht1).
Qed.

Lemma v_at_breakpoint_witness :
  v 6.00E-04 = ok (Fin ((0.963470131 - 0.972267286) / (8.00E-04 - 6.00E-04))) /\
  (forall t, (6.00E-04 <= t)%Q -> (t < 8.00E-04)%Q ->
     v t = ok (Fin ((0.963470131 - 0.972267286) / (8.00E-04 - 6.00E-04)))).
Proof.
  apply (v_at_breakpoint 3); reflexivity.
Defined.

(** C3.  From the last breakpoint on, [v] does not fail: it returns the
    discrete derivative of the final interval, the value it has inside
    that interval, and that value is not zero. *)
Theorem v_beyond_last_breakpoint :
  forall (t a b d : Q),
    breakpoint (n_breakpoints - 2) = Some a ->
    breakpoint (n_breakpoints - 1) = Some b ->
    interval_velocity (n_breakpoints - 2) = Some d ->
    (b <= t)%Q ->
    v t = ok (Fin d) /\
    (forall t', (a <= t')%Q -> (t' < b)%Q -> v t' = v t) /\
    ~ (d == 0)%Q.
Proof.
  intros t a b d Ha Hb Hd Ht.
  pose proof (v_beyond t b d Hb Ht Hd) as Hv.
  split; [exact Hv|]. split.
  - intros t' Hat Htb. rewrite Hv.
    apply (v_inside t' (n_breakpoints - 2) a b d); assumption.
  - apply last_velocity_nonzero, Hd.
Qed.

Lemma v_beyond_last_breakpoint_witness :
  v 1 = ok (Fin ((0.722289314 - 0.726350127) / (0.009 - 0.0088))) /\
  (forall t', (0.0088 <= t')%Q -> (t' < 0.009)%Q -> v t' = v 1) /\
  ~ ((0.722289314 - 0.726350127) / (0.009 - 0.0088) == 0)%Q.
Proof.
  apply (v_beyond_last_breakpoint 1 0.0088 0.009); try reflexivity.
  discriminate.
Defined.

(** C10.  [v] returns a finite value at every query time.  Below the
    first breakpoint (time 0) no interval matches and [v] falls through
    to the derivative of the final interval, the value it has from the
    last breakpoint on, which differs from the derivative of the first
    interval. *)
Theorem v_total_and_below_first :
  forall (t : Q),
    (exists q, v t = ok (Fin q)) /\
    (forall (b d d0 : Q),
       (t < 0)%Q ->
       breakpoint (n_breakpoints - 1) = Some b ->
       interval_velocity (n_breakpoints - 2) = Some d ->
       interval_velocity 0 = Some d0 ->
       v t = ok (Fin d) /\
       (forall t', (b <= t')%Q -> v t' = v t) /\
       ~ (d == d0)%Q /\
       v t <> ok (Fin d0)).
Proof.
  intros t. split; [apply v_total|].
  intros b d d0 Ht Hb Hd Hd0.
  pose proof (v_below t 0 d eq_refl Ht Hd) as Hv.
  pose proof (first_last_velocity_differ d0 d Hd0 Hd) as Hne.
  split; [exact Hv|]. split; [|split; [exact Hne|]].
  - intros t' Ht'. rewrite Hv. apply (v_beyond t' b d Hb Ht' Hd).
  - rewrite Hv. intros E. injection E as E. apply Hne. rewrite E.
    reflexivity.
Qed.

Lemma v_total_and_below_first_witness :
  (exists q, v (-1) = ok (Fin q)) /\
  v (-1) = ok (Fin ((0.722289314 - 0.726350127) / (0.009 - 0.0088))) /\
  v (-1) = v 0.009 /\
  v (-1) <> v 0.
Proof.
  destruct (v_total_and_below_first (-1)) as [Htot Hbelow].
  destruct (Hbelow 0.009%Q
              ((0.722289314 - 0.726350127) / (0.009 - 0.0088))%Q
              ((0.990523087 - 1) / (2.00E-04 - 0))%Q)
    as (Hv & Hsame & _ & Hne); try reflexivity.
  split; [exact Htot|]. split; [exact Hv|]. split.
  - symmetry. apply Hsame. apply Qle_refl.
  - exact Hne.
Defined.

(** ** The shared gas object *)

(** C5.  In [run_cal_real] the name [gas2] is the caller's reference
    itself, and both reactors hold it.  The assignment to [gas2.X]
    rewrites the caller's object in place to pure H2, whatever its
    composition was, and touches no other object.  The second reactor,
    built after the assignment, starts from pure H2; the first, built
    before it, starts from the caller's composition. *)
Theorem run_cal_real_shares_gas :
  forall (h : store) (gas : loc) (g : Solution),
    h !! gas = Some g ->
    str_in "H2" (sol_species g) = true ->
    exists r1 gas2 r2 h',
      run_cal_real_setup h gas = ok (r1, gas2, r2, h') /\
      gas2 = gas /\
      r_contents r1 = gas /\ r_contents r2 = gas /\
      sol_X (r_initial r2) = {[ "H2" := 1%Q ]} /\
      sol_X <$> h' !! gas = Some {[ "H2" := 1%Q ]} /\
      sol_X (r_initial r1) = sol_X g /\
      (forall l, l <> gas -> h' !! l = h !! l).
Proof.
  intros h gas g Hg HH2.
  pose proof (run_cal_real_setup_spec h gas g Hg HH2) as Hrun.
  simpl in Hrun. do 4 eexists. split; [exact Hrun|].
  repeat split.
  - rewrite lookup_insert_eq. reflexivity.
  - intros l Hl. rewrite lookup_insert_ne by congruence. reflexivity.
Qed.

Lemma run_cal_real_shares_gas_witness :
  exists r1 gas2 r2 h',
    run_cal_real_setup store_one 7 = ok (r1, gas2, r2, h') /\
    gas2 = 7 /\
    r_contents r1 = 7 /\ r_contents r2 = 7 /\
    sol_X (r_initial r2) = {[ "H2" := 1%Q ]} /\
    sol_X <$> h' !! 7 = Some {[ "H2" := 1%Q ]} /\
    sol_X (r_initial r1) = sol_X gas_mix /\
    (forall l, l <> 7 -> h' !! l = store_one !! l).
Proof.
  apply (run_cal_real_shares_gas store_one 7 gas_mix); reflexivity.
Defined.

(** ** The advance loops *)

(** C8.  Let every solver step return a time strictly greater than the
    step before, growing without bound.  Then the loop shared by
    [run_cal_ideal] and [run_cal_real] comes to an end after some number
    [k] of turns, whatever reactor is sampled: with [k] units of fuel or
    more it yields one and the same outcome.  When the loop is left, the
    time is at least [end_time]; it was below [end_time] before every
    turn taken; and the times returned by successive steps never
    decrease.  The loop is left normally, in the state reached after [k]
    steps, unless [print_step] is zero; the only exception the loop can
    raise is the [ZeroDivisionError] of [counter % print_step].  Both
    runners come to an end, with a value when [print_step] is not zero
    and the gas is usable. *)
Theorem advance_terminates :
  forall (ReactorNet : Type)
         (ReactorNet_new : list Reactor -> list Wall -> ReactorNet)
         (net_step : ReactorNet -> Q * ReactorNet)
         (net_thermo : ReactorNet -> Reactor -> ThermoState)
         (end_time : Q) (print_step : Z),
    (forall net, steps_increase net_step net /\ steps_unbounded net_step net) ->
    (forall (r : Reactor) (hist0 : SolutionArray) (net0 : ReactorNet),
       exists k outcome,
         (forall fuel, k <= fuel ->
            advance net_step net_thermo fuel r end_time print_step
              (mkLoopState 0 1 hist0 net0) = Some outcome) /\
         (forall s, outcome = ok s -> (end_time <= ls_t s)%Q) /\
         (print_step <> 0%Z ->
            exists hist,
              outcome =
                ok (mkLoopState (t_after net_step net0 k) (1 + Z.of_nat k)
                      hist (net_after net_step k net0))) /\
         (forall e, outcome = raise e ->
            e = ZeroDivisionError /\ print_step = 0%Z) /\
         (forall i, i < k -> (t_after net_step net0 i < end_time)%Q) /\
         (forall i j, 1 <= i <= j ->
            (t_after net_step net0 i <= t_after net_step net0 j)%Q)) /\
    (forall (h : store) (gas : loc),
       exists fuel out,
         run_cal_ideal ReactorNet_new net_step net_thermo
           fuel h gas end_time print_step = Some out /\
         (print_step <> 0%Z -> forall g, h !! gas = Some g ->
          exists res, out = ok res)) /\
    (forall (h : store) (gas : loc),
       exists fuel out,
         run_cal_real ReactorNet_new net_step net_thermo
           fuel h gas end_time print_step = Some out /\
         (print_step <> 0%Z -> forall g, h !! gas = Some g ->
          str_in "H2" (sol_species g) = true ->
          exists res, out = ok res)).
Proof.
  intros ReactorNet ReactorNet_new net_step net_thermo end_time print_step
    Hsolver.
  assert (Hunb : forall net, steps_unbounded net_step net)
    by (intros net; apply Hsolver).
  split; [|split].
  - intros r hist0 net0.
    destruct (advance_outcome net_step net_thermo r end_time print_step
                hist0 net0 (Hunb net0))
      as (k & outcome & Hrun & Hok & Hexit & Hraise & Hlt).
    exists k, outcome.
    split; [exact Hrun|]. split; [exact Hexit|]. split; [exact Hok|].
    split; [exact Hraise|]. split; [exact Hlt|].
    intros [|i] [|j] Hij; try lia. simpl.
    apply step_time_mono; [apply Hsolver | lia].
  - intros h gas. apply run_cal_ideal_terminates, Hunb.
  - intros h gas. apply run_cal_real_terminates, Hunb.
Qed.

Lemma advance_terminates_witness :
  (exists fuel res,
     run_cal_ideal stub_new stub_step stub_thermo fuel store_one 7 0.005 20 =
       Some (ok res)) /\
  (exists fuel res,
     run_cal_real stub_new stub_step stub_thermo fuel store_one 7 0.005 20 =
       Some (ok res)).
Proof.
  destruct (advance_terminates nat stub_new stub_step stub_thermo 0.005 20
              stub_solver) as (_ & Hideal & Hreal).
  split.
  - destruct (Hideal store_one 7) as (fuel & out & Hrun & Hok).
    destruct (Hok ltac:(discriminate) gas_mix eq_refl) as [res ->].
    exists fuel, res. exact Hrun.
  - destruct (Hreal store_one 7) as (fuel & out & Hrun & Hok).
    destruct (Hok ltac:(discriminate) gas_mix eq_refl eq_refl) as [res ->].
    exists fuel, res. exact Hrun.
Defined.

(** The stub run of the two runners: the temperature jumps after 2 ms,
    sampling every 20th step sees it between 2 ms and 4 ms. *)
Example run_cal_ideal_stub :
  run_cal_ideal stub_new stub_step stub_thermo 50 store_one 7 0.005 20 =
  Some (ok 2.0000%Q).
Proof. vm_compute. reflexivity. Qed.

Example run_cal_real_stub :
  run_cal_real stub_new stub_step stub_thermo 50 store_one 7 0.005 20 =
  Some (ok 2.0000%Q).
Proof. vm_compute. reflexivity. Qed.

(** With [print_step = 0] the first turn raises. *)
Example run_cal_ideal_print_step_zero :
  run_cal_ideal stub_new stub_step stub_thermo 50 store_one 7 0.005 0 =
  Some (raise ZeroDivisionError).
Proof. vm_compute. reflexivity. Qed.

(** * Further properties of the code *)

(** ** The order on slopes *)

Lemma np_gt_irrefl (a : npfloat) : np_gt a a = false.
Proof.
  destruct a; simpl; try reflexivity. apply Qltb_ge, Qle_refl.
Qed.

Lemma np_gt_trans (a b c : npfloat) :
  np_gt a b = true -> np_gt b c = true -> np_gt a c = true.
Proof.
  destruct a, b, c; simpl; try congruence.
  rewrite !Qltb_lt. intros H1 H2. lra.
Qed.

(** Among slopes that are not nan, what does not exceed [m] lies below
    what does. *)
Lemma np_gt_above (s m x : npfloat) :
  np_gt s m = true -> np_gt x m = false -> x <> NaN -> np_gt s x = true.
Proof.
  destruct s, m, x; simpl; try congruence.
  rewrite !Qltb_lt, Qltb_ge. intros H1 H2 _. lra.
Qed.

Lemma np_gt_PosInf (x : npfloat) :
  np_gt PosInf x = false -> x = PosInf \/ x = NaN.
Proof.
  destruct x; simpl; auto; discriminate.
Qed.

Lemma np_le_below (a b m : npfloat) :
  np_le a b = true -> np_gt b m = false -> np_gt a m = false.
Proof.
  destruct a, b, m; simpl; try congruence.
  rewrite Qle_bool_iff, !Qltb_ge. intros H1 H2. lra.
Qed.

(** ** What the slope loop has found after [n] turns *)

Section RoundedFound.

Variable quot : Q -> Q -> Q -> Q -> npfloat.

Lemma slope_fl_functional (t y : list Q) (i : nat) (s s' : npfloat) :
  slope_fl quot t y i = ok s -> slope_fl quot t y i = ok s' -> s = s'.
Proof. congruence. Qed.

Lemma found_after_init (t y : list Q) : found_after quot t y 0 (Fin 0, 0%Q).
Proof.
  split; [intros j sj Hj; lia|].
  left. split; [reflexivity|]. intros j sj Hj. lia.
Qed.

Lemma found_after_step (t y : list Q) (n : nat) (st st' : npfloat * Q) :
  found_after quot t y n st ->
  get_IDT_body_fl quot t y n st = ok st' ->
  found_after quot t y (S n) st'.
Proof.
  intros [Hmax Hcase] Hbody. unfold get_IDT_body_fl in Hbody.
  apply bind_ok_inv in Hbody. destruct Hbody as (s & Hs & Hbody).
  assert (Hzero : st.1 = Fin 0 \/ np_gt st.1 (Fin 0) = true).
  { destruct Hcase as [[-> _] | (k & _ & _ & _ & Hpos & _)]; auto. }
  destruct (np_gt s st.1) eqn:Hgt.
  - apply bind_ok_inv in Hbody. destruct Hbody as (tn & Htn & Hbody).
    injection Hbody as <-. apply py_index_ok in Htn.
    unfold found_after. simpl. split.
    + intros j sj Hj Hsj. destruct (decide (j = n)) as [->|Hne].
      * rewrite (slope_fl_functional _ _ _ _ _ Hsj Hs). apply np_gt_irrefl.
      * destruct (np_gt sj s) eqn:E; [|reflexivity].
        rewrite <- (Hmax j sj ltac:(lia) Hsj).
        symmetry. eapply np_gt_trans; eassumption.
    + right. exists n. simpl. split; [lia|]. split; [exact Hs|].
      split; [exact Htn|]. split.
      * destruct Hzero as [E | Hpos]; [rewrite E in Hgt; exact Hgt|].
        eapply np_gt_trans; eassumption.
      * intros j sj Hj Hsj.
        pose proof (Hmax j sj Hj Hsj) as Hle.
        destruct sj as [| |q|]; [left; reflexivity| | |];
          right; apply (np_gt_above s st.1 _ Hgt Hle); discriminate.
  - injection Hbody as <-. split.
    + intros j sj Hj Hsj. destruct (decide (j = n)) as [->|Hne].
      * rewrite (slope_fl_functional _ _ _ _ _ Hsj Hs). exact Hgt.
      * apply (Hmax j sj ltac:(lia) Hsj).
    + destruct Hcase as [[-> Hnone] | (k & Hk & Hsk & Htk & Hpos & Hbefore)].
      * left. split; [reflexivity|].
        intros j sj Hj Hsj. destruct (decide (j = n)) as [->|Hne].
        -- rewrite (slope_fl_functional _ _ _ _ _ Hsj Hs). exact Hgt.
        -- apply (Hnone j sj ltac:(lia) Hsj).
      * right. exists k. split; [lia|]. auto.
Qed.

Lemma found_after_loop (t y : list Q) (n : nat) (st : npfloat * Q) :
  for_each (get_IDT_body_fl quot t y) (seq 0 n) (Fin 0, 0%Q) = ok st ->
  found_after quot t y n st.
Proof.
  revert st. induction n as [|n IH]; intros st H.
  - injection H as <-. apply found_after_init.
  - rewrite seq_S, for_each_app in H. simpl in H.
    apply bind_ok_inv in H. destruct H as (st1 & H1 & H).
    apply bind_ok_inv in H. destruct H as (st2 & H2 & H).
    injection H as <-.
    eapply found_after_step; [apply IH, H1 | exact H2].
Qed.

(** The loop of get_IDT, run to its end. *)
Lemma slope_loop_found (a : SolutionArray) (signal : string) :
  selects_TP signal ->
  exists st,
    for_each (get_IDT_body_fl quot (sa_t a) (signal_column a signal))
      (range (length (sa_t a) - 1)) (Fin 0, 0%Q) = ok st /\
    get_IDT_fl quot a signal = ok st.2 /\
    found_after quot (sa_t a) (signal_column a signal)
      (length (sa_t a) - 1) st.
Proof.
  intros Hsig.
  destruct (loop_fl_total quot (sa_t a) (signal_column a signal)
              (range (length (sa_t a) - 1)) (Fin 0, 0%Q)) as [st Hst].
  - apply column_length.
  - eapply Forall_impl; [apply (seq_Forall_lt _ _ (length (sa_t a) - 1)); lia|].
    simpl. intros; lia.
  - exists st. split; [exact Hst|]. split.
    + rewrite (get_IDT_fl_slope_branch quot a signal Hsig), Hst. reflexivity.
    + apply found_after_loop, Hst.
Qed.

End RoundedFound.

(** ** get_IDT: what it returns on temperature and pressure *)

(** On 'T' and 'P' (in any case) [get_IDT] always returns a value, whatever
    the history and whatever the arithmetic of line 32 yields: it is the
    default 0 and no computed slope is positive, or it is the time at an
    index [k] that has a successor, whose computed slope is positive and
    exceeded by no computed slope, every earlier one being smaller or
    nan. *)
Theorem get_IDT_slope_sound :
  forall (quot : Q -> Q -> Q -> Q -> npfloat) (a : SolutionArray)
         (signal : string),
    selects_TP signal ->
    exists r,
      get_IDT_fl quot a signal = ok r /\
      ((r = 0%Q /\
        forall j sj,
          slope_fl quot (sa_t a) (signal_column a signal) j = ok sj ->
          np_gt sj (Fin 0) = false) \/
       (exists k sk,
          k + 1 < length (sa_rows a) /\
          sa_t a !! k = Some r /\
          np_gt sk (Fin 0) = true /\
          first_max_slope_fl quot (sa_t a) (signal_column a signal) k sk)).
Proof.
  intros quot a signal Hsig.
  destruct (slope_loop_found quot a signal Hsig)
    as ([m tau] & _ & Hget & Hmax & Hcase).
  exists tau. split; [exact Hget|].
  assert (Hin : forall j sj,
            slope_fl quot (sa_t a) (signal_column a signal) j = ok sj ->
            j < length (sa_t a) - 1).
  { intros j sj Hj. apply slope_fl_lt in Hj. lia. }
  destruct Hcase as [[E Hnone] | (k & Hk & Hsk & Htk & Hpos & Hbefore)].
  - left. injection E as -> ->. split; [reflexivity|].
    intros j sj Hj. apply (Hnone j sj (Hin j sj Hj) Hj).
  - right. exists k, m. simpl in *.
    split. { unfold sa_t in Hk. rewrite length_fmap in Hk. lia. }
    split; [exact Htk|]. split; [exact Hpos|].
    split; [exact Hsk|]. split.
    + intros j sj Hj. apply (Hmax j sj (Hin j sj Hj) Hj).
    + exact Hbefore.
Qed.

Lemma get_IDT_slope_sound_witness :
  exists r,
    get_IDT_fl quot_f64 history_tenths "T" = ok r /\
    ((r = 0%Q /\
      forall j sj,
        slope_fl quot_f64 (sa_t history_tenths)
          (signal_column history_tenths "T") j = ok sj ->
        np_gt sj (Fin 0) = false) \/
     (exists k sk,
        k + 1 < length (sa_rows history_tenths) /\
        sa_t history_tenths !! k = Some r /\
        np_gt sk (Fin 0) = true /\
        first_max_slope_fl quot_f64 (sa_t history_tenths)
          (signal_column history_tenths "T") k sk)).
Proof.
  apply (get_IDT_slope_sound quot_f64 history_tenths "T"). left. reflexivity.
Defined.

(** ** An infinite slope *)

(** A computed slope of +inf, as a rise across a repeated time stamp or
    an overflowing quotient gives, wins against every other slope:
    [get_IDT] returns the time of the first pair whose computed slope is
    +inf, and nothing is raised. *)
Theorem get_IDT_infinite_slope :
  forall (quot : Q -> Q -> Q -> Q -> npfloat) (a : SolutionArray)
         (signal : string) (i : nat) (ti : Q),
    selects_TP signal ->
    slope_fl quot (sa_t a) (signal_column a signal) i = ok PosInf ->
    (forall j, j < i ->
       slope_fl quot (sa_t a) (signal_column a signal) j <> ok PosInf) ->
    sa_t a !! i = Some ti ->
    get_IDT_fl quot a signal = ok ti.
Proof.
  intros quot a signal i ti Hsig Hsi Hfirst Hti.
  destruct (slope_loop_found quot a signal Hsig)
    as ([m tau] & _ & Hget & Hmax & Hcase).
  rewrite Hget. simpl in *.
  assert (Hi : i < length (sa_t a) - 1)
    by (apply slope_fl_lt in Hsi; lia).
  destruct Hcase as [[_ Hnone] | (k & Hk & Hsk & Htk & Hpos & Hbefore)].
  - specialize (Hnone i PosInf Hi Hsi). discriminate Hnone.
  - pose proof (Hmax i PosInf Hi Hsi) as Hle.
    apply np_gt_PosInf in Hle. destruct Hle as [-> | ->];
      [|discriminate Hpos].
    destruct (Nat.lt_trichotomy k i) as [Hlt | [-> | Hgt]].
    + exfalso. apply (Hfirst k Hlt Hsk).
    + congruence.
    + exfalso. destruct (Hbefore i PosInf Hgt Hsi) as [E | E];
        discriminate E.
Qed.

(** In binary64 the slopes of [history_repeated] are 100, inf and 1100. *)
Lemma get_IDT_infinite_slope_witness :
  get_IDT_fl quot_f64 history_repeated "T" = ok 1%Q.
Proof.
  apply (get_IDT_infinite_slope quot_f64 history_repeated "T" 1 1%Q).
  - left. reflexivity.
  - reflexivity.
  - intros j Hj. destruct j as [|j]; [|lia].
    vm_compute. discriminate.
  - reflexivity.
Defined.

(** The quotient of the first pair of [history_overflow] is finite in
    exact arithmetic and overflows in binary64: there the first pair
    already has slope +inf, and its time is returned rather than that of
    the pair across the repeated time stamp. *)
Example get_IDT_overflow :
  get_IDT_fl quot_exact history_overflow "T" = ok 1%Q /\
  slope_fl quot_f64 (sa_t history_overflow)
    (signal_column history_overflow "T") 0 = ok PosInf /\
  get_IDT_fl quot_f64 history_overflow "T" = ok 0%Q.
Proof. split; [|split]; reflexivity. Qed.

(** ** Appending a sample *)

Lemma signal_column_append (a : SolutionArray) (s : Sample) (signal : string) :
  exists x, signal_column (sa_append a s) signal = signal_column a signal ++ [x].
Proof.
  unfold signal_column, sa_T, sa_P, sa_append. simpl.
  destruct (String.eqb _ _); rewrite fmap_app; eauto.
Qed.

Lemma sa_t_append (a : SolutionArray) (s : Sample) :
  sa_t (sa_append a s) = sa_t a ++ [s_t s].
Proof.
  unfold sa_t, sa_append. simpl. rewrite fmap_app. reflexivity.
Qed.

Lemma for_each_ext {A S} (f g : A -> S -> result S) (xs : list A) (s : S) :
  Forall (fun x => forall s', f x s' = g x s') xs ->
  for_each f xs s = for_each g xs s.
Proof.
  intros H. revert s. induction H as [|x xs Hx _ IH]; intros s; simpl;
    [reflexivity|].
  rewrite Hx. destruct (g x s); simpl; [apply IH | reflexivity].
Qed.

Section RoundedAppend.

Variable quot : Q -> Q -> Q -> Q -> npfloat.

Lemma slope_fl_prefix (t y u w : list Q) (i : nat) :
  length y = length t -> i + 1 < length t ->
  slope_fl quot (t ++ u) (y ++ w) i = slope_fl quot t y i.
Proof.
  intros Hlen Hi. unfold slope_fl, py_index.
  rewrite !lookup_app_l by lia. reflexivity.
Qed.

Lemma body_fl_prefix (t y u w : list Q) (i : nat) (st : npfloat * Q) :
  length y = length t -> i + 1 < length t ->
  get_IDT_body_fl quot (t ++ u) (y ++ w) i st = get_IDT_body_fl quot t y i st.
Proof.
  intros Hlen Hi. unfold get_IDT_body_fl.
  rewrite (slope_fl_prefix t y u w i Hlen Hi).
  unfold py_index. rewrite lookup_app_l by lia. reflexivity.
Qed.

End RoundedAppend.

(** Running on: a further sample whose computed slope is not positive, or
    is at most some computed slope of the history so far, leaves the result
    of [get_IDT] on 'T' or 'P' as it was, whatever the arithmetic of line 32
    yields. *)
Theorem get_IDT_append_stable :
  forall (quot : Q -> Q -> Q -> Q -> npfloat) (a : SolutionArray)
         (s : Sample) (signal : string) (sn : npfloat),
    selects_TP signal ->
    slope_fl quot (sa_t (sa_append a s))
      (signal_column (sa_append a s) signal) (length (sa_rows a) - 1) = ok sn ->
    (np_gt sn (Fin 0) = false \/
     exists j sj,
       slope_fl quot (sa_t a) (signal_column a signal) j = ok sj /\
       np_le sn sj = true) ->
    get_IDT_fl quot (sa_append a s) signal = get_IDT_fl quot a signal.
Proof.
  intros quot a s signal sn Hsig Hsn Hlow.
  destruct (signal_column_append a s signal) as [x Hcol].
  pose proof (column_length a signal) as Hlen.
  set (t := sa_t a) in *. set (y := signal_column a signal) in *.
  assert (Hn : length (sa_rows a) = length t)
    by (unfold t, sa_t; rewrite length_fmap; reflexivity).
  rewrite Hn in Hsn.
  assert (Hpos : 1 <= length t).
  { apply slope_fl_lt in Hsn. rewrite sa_t_append, length_app in Hsn.
    simpl in Hsn. fold t in Hsn. lia. }
  destruct (slope_loop_found quot a signal Hsig)
    as (st & Hloop & Hget & Hmax & Hcase).
  fold t y in Hloop, Hmax, Hcase.
  rewrite Hget, (get_IDT_fl_slope_branch quot _ _ Hsig).
  rewrite sa_t_append, Hcol in *. fold t in Hsn |- *.
  replace (length (t ++ [s_t s]) - 1) with (S (length t - 1))
    by (rewrite length_app; simpl; lia).
  unfold range in *. rewrite seq_S, for_each_app.
  rewrite (for_each_ext _ (get_IDT_body_fl quot t y)).
  - rewrite Hloop. simpl.
    rewrite (body_fl_keep quot _ _ _ st sn Hsn); [reflexivity|].
    destruct Hlow as [Hneg | (j & sj & Hsj & Hle)].
    + destruct (np_gt sn st.1) eqn:E; [|reflexivity].
      rewrite <- Hneg. symmetry.
      destruct Hcase as [[-> _] | (k & _ & _ & _ & Hk & _)]; [exact E|].
      eapply np_gt_trans; eassumption.
    + apply (np_le_below sn sj st.1 Hle).
      apply (Hmax j sj); [|exact Hsj].
      apply slope_fl_lt in Hsj. fold t in Hsj. lia.
  - apply Forall_forall. intros i Hi st'.
    apply list_elem_of_In, in_seq in Hi.
    apply body_fl_prefix; [exact Hlen | lia].
Qed.

Lemma get_IDT_append_stable_witness :
  get_IDT_fl quot_f64 (sa_append history_spike (row 4 2000 2 0)) "T" =
  get_IDT_fl quot_f64 history_spike "T".
Proof.
  apply (get_IDT_append_stable quot_f64 history_spike (row 4 2000 2 0) "T"
           (quot_f64 2000 2701 4 3)).
  - left. reflexivity.
  - reflexivity.
  - left. reflexivity.
Defined.

(** ** The wall velocity: which interval answers *)

Lemma locate (ts : list Q) (t a0 : Q) (m : nat) :
  strictly_increasing ts -> m < length ts ->
  ts !! 0 = Some a0 -> (a0 <= t)%Q ->
  (exists i a b, i < m /\ ts !! i = Some a /\ ts !! (i + 1) = Some b /\
                 (a <= t)%Q /\ (t < b)%Q) \/
  (exists c, ts !! m = Some c /\ (c <= t)%Q).
Proof.
  intros Hinc Hm H0 Ht. induction m as [|m IH].
  - right. eauto.
  - destruct IH as [(i & a & b & Hi & Ha & Hb & Hat & Htb) | (c & Hc & Hct)];
      [lia | |].
    + left. exists i, a, b. repeat split; try assumption. lia.
    + destruct (lookup_lt_is_Some_2 ts (S m) Hm) as [b Hb].
      destruct (Qlt_le_dec t b) as [Htb | Hbt].
      * left. exists m, c, b. rewrite Nat.add_1_r.
        repeat split; try assumption. lia.
      * right. eauto.
Qed.

Lemma interval_velocity_lt (i : nat) (d : Q) :
  interval_velocity i = Some d -> i + 1 < n_breakpoints.
Proof.
  intros H. apply interval_velocity_inv in H.
  destruct H as (a & b & va & vb & _ & Hb & _).
  apply lookup_lt_Some in Hb. exact Hb.
Qed.

Lemma interval_velocity_some (i : nat) :
  i + 1 < n_breakpoints -> exists d, interval_velocity i = Some d.
Proof.
  intros Hi. rewrite n_breakpoints_length in Hi.
  unfold interval_velocity. rewrite !breakpoint_lookup, !volume_lookup.
  destruct (lookup_lt_is_Some_2 V_times i) as [a ->]; [lia|].
  destruct (lookup_lt_is_Some_2 V_times (i + 1)) as [b ->]; [lia|].
  destruct (lookup_lt_is_Some_2 V_volumes i) as [va ->];
    [rewrite V_lengths; lia|].
  destruct (lookup_lt_is_Some_2 V_volumes (i + 1)) as [vb ->];
    [rewrite V_lengths; lia|].
  simpl. eauto.
Qed.

(** From time 0 on, [v] answers with the velocity of an interval whose
    left end is at or before the query; unless that interval is the last
    one, the query lies before its right end. *)
Lemma v_index (t : Q) :
  (0 <= t)%Q ->
  exists i a d,
    breakpoint i = Some a /\ (a <= t)%Q /\
    interval_velocity i = Some d /\ v t = ok (Fin d) /\
    (i + 2 < n_breakpoints ->
     exists b, breakpoint (i + 1) = Some b /\ (t < b)%Q).
Proof.
  intros Ht.
  destruct (locate V_times t 0 (n_breakpoints - 1) V_times_increasing)
    as [(i & a & b & Hi & Ha & Hb & Hat & Htb) | (c & Hc & Hct)];
    [vm_compute; lia | reflexivity | exact Ht | |].
  - destruct (interval_velocity_some i) as [d Hd]; [lia|].
    exists i, a, d. rewrite !breakpoint_lookup.
    split; [exact Ha|]. split; [exact Hat|]. split; [exact Hd|]. split.
    + apply (v_inside t i a b d); assumption.
    + intros _. eauto.
  - destruct (interval_velocity_some (n_breakpoints - 2)) as [d Hd];
      [vm_compute; lia|].
    destruct (lookup_lt_is_Some_2 V_times (n_breakpoints - 2)) as [a Ha];
      [vm_compute; lia|].
    exists (n_breakpoints - 2), a, d. rewrite breakpoint_lookup.
    split; [exact Ha|]. split.
    + assert (a <= c)%Q; [|lra].
      apply (increasing_le V_times (n_breakpoints - 2) (n_breakpoints - 1));
        [apply V_times_increasing | lia | exact Ha | exact Hc].
    + split; [exact Hd|]. split.
      * apply (v_beyond t c d); assumption.
      * intros Habs. vm_compute in Habs. lia.
Qed.

Lemma velocities_in_range (i : nat) :
  i + 1 < n_breakpoints -> velocity_in_range i = true.
Proof.
  intros Hi.
  assert (H : forallb velocity_in_range (seq 0 (n_breakpoints - 1)) = true)
    by (vm_compute; reflexivity).
  rewrite forallb_forall in H. apply H, in_seq. lia.
Qed.

Lemma velocities_monotone (i j : nat) :
  i <= j -> j + 1 < n_breakpoints -> velocity_le i j = true.
Proof.
  intros Hij Hj.
  assert (H : forallb (fun i => forallb (fun j => (j <? i) || velocity_le i j)
                                  (seq 0 (n_breakpoints - 1)))
                (seq 0 (n_breakpoints - 1)) = true)
    by (vm_compute; reflexivity).
  rewrite forallb_forall in H. specialize (H i).
  rewrite forallb_forall in H. specialize (H ltac:(apply in_seq; lia) j
                                             ltac:(apply in_seq; lia)).
  apply orb_true_iff in H. destruct H as [H | H]; [|exact H].
  apply Nat.ltb_lt in H. lia.
Qed.

(** At every query time, negative ones included, [v] returns the
    velocity of one of the tabulated intervals; it lies between the
    velocity of the first interval and that of the last, and is negative:
    the wall only ever moves inward. *)
Theorem v_range :
  forall (t d0 d1 : Q),
    interval_velocity 0 = Some d0 ->
    interval_velocity (n_breakpoints - 2) = Some d1 ->
    exists i d,
      interval_velocity i = Some d /\ v t = ok (Fin d) /\
      (d0 <= d)%Q /\ (d <= d1)%Q /\ (d < 0)%Q.
Proof.
  intros t d0 d1 Hd0 Hd1.
  assert (Hv : exists i d, interval_velocity i = Some d /\ v t = ok (Fin d)).
  { destruct (Qlt_le_dec t 0) as [Hneg | Hpos].
    - exists (n_breakpoints - 2), d1. split; [exact Hd1|].
      apply (v_below t 0 d1 eq_refl Hneg Hd1).
    - destruct (v_index t Hpos) as (i & a & d & _ & _ & Hd & Hv & _). eauto. }
  destruct Hv as (i & d & Hd & Hv). exists i, d.
  split; [exact Hd|]. split; [exact Hv|].
  pose proof (velocities_in_range i (interval_velocity_lt i d Hd)) as Hr.
  unfold velocity_in_range in Hr. rewrite Hd, Hd0, Hd1 in Hr.
  apply andb_true_iff in Hr. destruct Hr as [Hr Hneg].
  apply andb_true_iff in Hr. destruct Hr as [Hlo Hhi].
  apply Qle_bool_iff in Hlo, Hhi. apply Qltb_lt in Hneg. auto.
Qed.

Lemma v_range_witness :
  exists i d,
    interval_velocity i = Some d /\ v 0.0031 = ok (Fin d) /\
    ((0.990523087 - 1) / (2.00E-04 - 0) <= d)%Q /\
    (d <= (0.722289314 - 0.726350127) / (0.009 - 0.0088))%Q /\
    (d < 0)%Q.
Proof.
  apply (v_range 0.0031); reflexivity.
Defined.

(** From time 0 on the velocity never decreases with time: the wall
    slows down.  (Below time 0 it has the final, largest value.) *)
Theorem v_monotone :
  forall (t t' : Q),
    (0 <= t)%Q -> (t <= t')%Q ->
    exists d d', v t = ok (Fin d) /\ v t' = ok (Fin d') /\ (d <= d')%Q.
Proof.
  intros t t' Ht Htt'.
  destruct (v_index t Ht) as (i & a & d & Ha & Hat & Hd & Hv & Hnext).
  destruct (v_index t' ltac:(lra)) as (i' & a' & d' & Ha' & Hat' & Hd' & Hv' & Hnext').
  exists d, d'. split; [exact Hv|]. split; [exact Hv'|].
  pose proof (interval_velocity_lt i d Hd) as Hi.
  pose proof (interval_velocity_lt i' d' Hd') as Hi'.
  assert (Hii' : i <= i').
  { destruct (decide (i <= i')) as [|Hgt]; [assumption|]. exfalso.
    destruct Hnext' as (b' & Hb' & Htb'); [lia|].
    rewrite breakpoint_lookup in Ha, Hb'.
    assert (b' <= a)%Q; [|lra].
    apply (increasing_le V_times (i' + 1) i);
      [apply V_times_increasing | lia | exact Hb' | exact Ha]. }
  pose proof (velocities_monotone i i' Hii' Hi') as Hle.
  unfold velocity_le in Hle. rewrite Hd, Hd' in Hle.
  apply Qle_bool_iff, Hle.
Qed.

Lemma v_monotone_witness :
  exists d d', v 0.0005 = ok (Fin d) /\ v 0.02 = ok (Fin d') /\ (d <= d')%Q.
Proof.
  apply (v_monotone 0.0005 0.02); discriminate.
Defined.

(** ** run_cal_real called again on the same gas *)

(** The overwrite outlives the call: on the store that one call of
    [run_cal_real] leaves behind, the next call changes nothing further,
    and its first reactor starts from pure H2 as well, the same state as
    the second reactor, unless the caller sets the composition anew. *)
Theorem run_cal_real_setup_twice :
  forall (h : store) (gas : loc) (g : Solution),
    h !! gas = Some g ->
    str_in "H2" (sol_species g) = true ->
    exists r1 r2 h' r1' r2',
      run_cal_real_setup h gas = ok (r1, gas, r2, h') /\
      run_cal_real_setup h' gas = ok (r1', gas, r2', h') /\
      sol_X (r_initial r1) = sol_X g /\
      sol_X (r_initial r1') = {[ "H2" := 1%Q ]} /\
      r_initial r1' = r_initial r2 /\
      r_initial r2' = r_initial r2.
Proof.
  intros h gas g Hg HH2.
  pose proof (run_cal_real_setup_spec h gas g Hg HH2) as H1. simpl in H1.
  set (g' := mkSolution (sol_species g) (sol_T g) (sol_D g) {[ "H2" := 1%Q ]})
    in *.
  assert (Hg' : <[gas := g']> h !! gas = Some g') by apply lookup_insert_eq.
  pose proof (run_cal_real_setup_spec (<[gas := g']> h) gas g' Hg' HH2) as H2.
  simpl in H2. rewrite insert_insert_eq in H2.
  do 5 eexists. split; [exact H1|]. split; [exact H2|].
  repeat split.
Qed.

Lemma run_cal_real_setup_twice_witness :
  exists r1 r2 h' r1' r2',
    run_cal_real_setup store_one 7 = ok (r1, 7, r2, h') /\
    run_cal_real_setup h' 7 = ok (r1', 7, r2', h') /\
    sol_X (r_initial r1) = sol_X gas_mix /\
    sol_X (r_initial r1') = {[ "H2" := 1%Q ]} /\
    r_initial r1' = r_initial r2 /\
    r_initial r2' = r_initial r2.
Proof.
  apply (run_cal_real_setup_twice store_one 7 gas_mix); reflexivity.
Defined.

(** ** Edge cases of the runners *)

Section RunnerEdges.

Context {ReactorNet : Type}.
Variable ReactorNet_new : list Reactor -> list Wall -> ReactorNet.
Variable net_step : ReactorNet -> Q * ReactorNet.
Variable net_thermo : ReactorNet -> Reactor -> ThermoState.

Lemma advance_no_turn (fuel : nat) (r : Reactor) (end_time : Q)
    (print_step : Z) (s : LoopState ReactorNet) :
  (end_time <= ls_t s)%Q ->
  advance net_step net_thermo fuel r end_time print_step s = Some (ok s).
Proof.
  intros He. apply Qltb_ge in He.
  destruct fuel; cbn [advance]; rewrite He; reflexivity.
Qed.

Lemma advance_zero_step (fuel : nat) (r : Reactor) (end_time : Q)
    (s : LoopState ReactorNet) :
  (ls_t s < end_time)%Q ->
  advance net_step net_thermo (S fuel) r end_time 0 s =
  Some (raise ZeroDivisionError).
Proof.
  intros He. apply Qltb_lt in He. cbn [advance]. rewrite He.
  unfold advance_body. destruct (net_step (ls_net s)). reflexivity.
Qed.

End RunnerEdges.

(** With [end_time <= 0] the loop is not entered: no solver step is
    taken, the history stays empty and both runners return 0, for every
    [print_step], zero included. *)
Theorem run_cal_no_time :
  forall (ReactorNet : Type)
         (ReactorNet_new : list Reactor -> list Wall -> ReactorNet)
         (net_step : ReactorNet -> Q * ReactorNet)
         (net_thermo : ReactorNet -> Reactor -> ThermoState)
         (fuel : nat) (h : store) (gas : loc) (g : Solution)
         (end_time : Q) (print_step : Z),
    h !! gas = Some g ->
    (end_time <= 0)%Q ->
    run_cal_ideal ReactorNet_new net_step net_thermo fuel h gas end_time
      print_step = Some (ok 0%Q) /\
    (str_in "H2" (sol_species g) = true ->
     run_cal_real ReactorNet_new net_step net_thermo fuel h gas end_time
       print_step = Some (ok 0%Q)).
Proof.
  intros ReactorNet ReactorNet_new net_step net_thermo fuel h gas g end_time
    print_step Hg He.
  split.
  - unfold run_cal_ideal, Reactor_new, SolutionArray_new. rewrite Hg. simpl.
    rewrite advance_no_turn by exact He. reflexivity.
  - intros HH2. unfold run_cal_real.
    rewrite (run_cal_real_setup_spec h gas g Hg HH2).
    unfold SolutionArray_new. simpl. rewrite lookup_insert_eq. simpl.
    rewrite advance_no_turn by exact He. reflexivity.
Qed.

Lemma run_cal_no_time_witness :
  run_cal_ideal stub_new stub_step stub_thermo 0 store_one 7 0 0 =
    Some (ok 0%Q) /\
  run_cal_real stub_new stub_step stub_thermo 0 store_one 7 (-1) 20 =
    Some (ok 0%Q).
Proof.
  split.
  - apply (proj1 (run_cal_no_time nat stub_new stub_step stub_thermo 0
                    store_one 7 gas_mix 0 0 eq_refl ltac:(discriminate))).
  - apply (proj2 (run_cal_no_time nat stub_new stub_step stub_thermo 0
                    store_one 7 gas_mix (-1) 20 eq_refl ltac:(discriminate))).
    reflexivity.
Defined.

(** With [print_step = 0] and a positive [end_time], both runners raise
    [ZeroDivisionError] in the first turn, after one solver step, whatever
    the solver does. *)
Theorem run_cal_print_step_zero :
  forall (ReactorNet : Type)
         (ReactorNet_new : list Reactor -> list Wall -> ReactorNet)
         (net_step : ReactorNet -> Q * ReactorNet)
         (net_thermo : ReactorNet -> Reactor -> ThermoState)
         (fuel : nat) (h : store) (gas : loc) (g : Solution)
         (end_time : Q),
    h !! gas = Some g ->
    (0 < end_time)%Q ->
    run_cal_ideal ReactorNet_new net_step net_thermo (S fuel) h gas end_time
      0 = Some (raise ZeroDivisionError) /\
    (str_in "H2" (sol_species g) = true ->
     run_cal_real ReactorNet_new net_step net_thermo (S fuel) h gas end_time
       0 = Some (raise ZeroDivisionError)).
Proof.
  intros ReactorNet ReactorNet_new net_step net_thermo fuel h gas g end_time
    Hg He.
  split.
  - unfold run_cal_ideal, Reactor_new, SolutionArray_new. rewrite Hg.
    cbn -[advance].
    rewrite advance_zero_step by exact He. reflexivity.
  - intros HH2. unfold run_cal_real.
    rewrite (run_cal_real_setup_spec h gas g Hg HH2).
    unfold SolutionArray_new. cbn -[advance]. rewrite lookup_insert_eq.
    cbn -[advance].
    rewrite advance_zero_step by exact He. reflexivity.
Qed.

Lemma run_cal_print_step_zero_witness :
  run_cal_ideal stub_new stub_step stub_thermo 1 store_one 7 0.005 0 =
    Some (raise ZeroDivisionError) /\
  run_cal_real stub_new stub_step stub_thermo 1 store_one 7 0.005 0 =
    Some (raise ZeroDivisionError).
Proof.
  destruct (run_cal_print_step_zero nat stub_new stub_step stub_thermo 0
              store_one 7 gas_mix 0.005) as [Hideal Hreal];
    [reflexivity | reflexivity |].
  split; [exact Hideal | apply Hreal; reflexivity].
Defined.

(** ** What the loop records *)

Lemma sampled_turns_S (print_step : Z) (k : nat) :
  sampled_turns print_step (S k) =
  sampled_turns print_step k ++
  (if decide (Z.of_nat (S k) mod print_step = 0)%Z then [S k] else []).
Proof.
  unfold sampled_turns. rewrite seq_S, filter_app. reflexivity.
Qed.

Lemma sampled_turns_bounds (print_step : Z) (k c : nat) :
  c ∈ sampled_turns print_step k -> 1 <= c <= k.
Proof.
  unfold sampled_turns. rewrite list_elem_of_filter, elem_of_seq. lia.
Qed.

Lemma sampled_turns_increasing (print_step : Z) (k i c c' : nat) :
  sampled_turns print_step k !! i = Some c ->
  sampled_turns print_step k !! (i + 1) = Some c' ->
  c < c'.
Proof.
  revert i c c'. induction k as [|k IH]; intros i c c' Hc Hc'.
  - discriminate Hc.
  - rewrite sampled_turns_S in Hc, Hc'.
    destruct (decide (i + 1 < length (sampled_turns print_step k))) as [Hi|Hi].
    + rewrite lookup_app_l in Hc, Hc' by lia. eapply IH; eassumption.
    + rewrite lookup_app_r in Hc' by lia.
      destruct (decide (Z.of_nat (S k) mod print_step = 0)%Z);
        [|destruct (i + 1 - _); discriminate Hc'].
      destruct (i + 1 - length (sampled_turns print_step k)) as [|n] eqn:E;
        [|destruct n; discriminate Hc'].
      injection Hc' as <-.
      rewrite lookup_app_l in Hc by lia.
      apply list_elem_of_lookup_2, sampled_turns_bounds in Hc. lia.
Qed.

(** For a positive [print_step], [k] turns append [k / print_step] rows. *)
Lemma Z_div_succ (n p : Z) :
  (0 <= n)%Z -> (0 < p)%Z ->
  ((n + 1) / p = n / p + (if decide ((n + 1) mod p = 0)%Z then 1 else 0))%Z.
Proof.
  intros Hn Hp.
  pose proof (Z.div_mod n p ltac:(lia)) as E.
  pose proof (Z.mod_pos_bound n p Hp) as B.
  pose proof (Z.div_mod (n + 1) p ltac:(lia)) as E'.
  pose proof (Z.mod_pos_bound (n + 1) p Hp) as B'.
  destruct (decide ((n + 1) mod p = 0)%Z) as [Hz|Hnz]; nia.
Qed.

Lemma sampled_turns_length (print_step : Z) (k : nat) :
  (0 < print_step)%Z ->
  length (sampled_turns print_step k) = Z.to_nat (Z.of_nat k / print_step).
Proof.
  intros Hp. induction k as [|k IH]; [reflexivity|].
  rewrite sampled_turns_S, length_app, IH.
  replace (Z.of_nat (S k)) with (Z.of_nat k + 1)%Z by lia.
  rewrite (Z_div_succ (Z.of_nat k) print_step) by lia.
  pose proof (Z.div_pos (Z.of_nat k) print_step ltac:(lia) Hp).
  destruct (decide ((Z.of_nat k + 1) mod print_step = 0)%Z); simpl; lia.
Qed.

Section Sampling.

Context {ReactorNet : Type}.
Variable net_step : ReactorNet -> Q * ReactorNet.
Variable net_thermo : ReactorNet -> Reactor -> ThermoState.

Variable r : Reactor.
Variable end_time : Q.
Variable print_step : Z.
Variable net0 : ReactorNet.
Variable hist0 : SolutionArray.

Hypothesis print_step_nonzero : print_step <> 0%Z.

(** The loop state after [j] turns. *)
Let state_after (j : nat) : LoopState ReactorNet :=
  mkLoopState (t_after net_step net0 j) (1 + Z.of_nat j)
    (recorded net_step net_thermo r net0 hist0 print_step j)
    (net_after net_step j net0).

Lemma state_after_0 : state_after 0 = mkLoopState 0%Q 1%Z hist0 net0.
Proof.
  unfold state_after, recorded. simpl. rewrite app_nil_r.
  destruct hist0. reflexivity.
Qed.

Lemma advance_body_recorded (j : nat) :
  advance_body net_step net_thermo r print_step (state_after j) =
  ok (state_after (S j)).
Proof.
  unfold advance_body, state_after, py_mod. cbn [ls_net ls_counter ls_timeHistory].
  destruct (net_step (net_after net_step j net0)) as [t net] eqn:E.
  destruct (Z.eqb_spec print_step 0) as [Hz|_]; [contradiction|].
  cbn [mbind result_bind]. f_equal.
  assert (Ht : t = t_after net_step net0 (S j))
    by (simpl; unfold step_time; rewrite E; reflexivity).
  assert (Hnet : net = net_after net_step (S j) net0)
    by (unfold net_after; simpl; fold (net_after net_step j net0);
        rewrite E; reflexivity).
  replace (1 + Z.of_nat j + 1)%Z with (1 + Z.of_nat (S j))%Z by lia.
  f_equal; try assumption.
  unfold recorded. rewrite sampled_turns_S.
  replace (1 + Z.of_nat j)%Z with (Z.of_nat (S j)) by lia.
  destruct (decide (Z.of_nat (S j) mod print_step = 0)%Z) as [Hm|Hm].
  - rewrite Hm. simpl. unfold sa_append. simpl.
    rewrite fmap_app, app_assoc. simpl. do 3 f_equal.
    unfold sample_at. rewrite <- Hnet, <- Ht. reflexivity.
  - destruct (Z.eqb_spec (Z.of_nat (S j) mod print_step) 0) as [Hz|_];
      [contradiction|].
    rewrite app_nil_r. reflexivity.
Qed.

Lemma advance_recorded_from (fuel j : nat) (s : LoopState ReactorNet) :
  advance net_step net_thermo fuel r end_time print_step (state_after j) =
    Some (ok s) ->
  exists k,
    j <= k <= j + fuel /\ s = state_after k /\
    (end_time <= t_after net_step net0 k)%Q /\
    (forall i, j <= i < k -> (t_after net_step net0 i < end_time)%Q).
Proof.
  revert j. induction fuel as [|fuel IH]; intros j H; cbn [advance] in H;
    destruct (Qltb (ls_t (state_after j)) end_time) eqn:E;
    try discriminate H.
  - injection H as <-. exists j. split; [lia|]. split; [reflexivity|].
    split; [apply Qltb_ge, E | intros i Hi; lia].
  - rewrite advance_body_recorded in H.
    destruct (IH (S j) H) as (k & Hk & -> & Hexit & Hlt).
    exists k. split; [lia|]. split; [reflexivity|]. split; [exact Hexit|].
    intros i Hi. destruct (decide (i = j)) as [->|Hne].
    + apply Qltb_lt, E.
    + apply Hlt. lia.
  - injection H as <-. exists j. split; [lia|]. split; [reflexivity|].
    split; [apply Qltb_ge, E | intros i Hi; lia].
Qed.

Lemma advance_recorded (fuel : nat) (s : LoopState ReactorNet) :
  advance net_step net_thermo fuel r end_time print_step
    (mkLoopState 0 1 hist0 net0) = Some (ok s) ->
  exists k,
    k <= fuel /\
    s = mkLoopState (t_after net_step net0 k) (1 + Z.of_nat k)
          (recorded net_step net_thermo r net0 hist0 print_step k)
          (net_after net_step k net0) /\
    (end_time <= t_after net_step net0 k)%Q /\
    (forall i, i < k -> (t_after net_step net0 i < end_time)%Q).
Proof.
  rewrite <- state_after_0. intros H.
  destruct (advance_recorded_from fuel 0 s H) as (k & Hk & -> & Hexit & Hlt).
  exists k. split; [lia|]. split; [reflexivity|]. split; [exact Hexit|].
  intros i Hi. apply Hlt. lia.
Qed.

Lemma step_time_strict (i j : nat) :
  steps_increase net_step net0 -> i < j ->
  (step_time net_step net0 i < step_time net_step net0 j)%Q.
Proof.
  intros Hinc Hij. induction Hij as [|j _ IH]; [apply Hinc|].
  specialize (Hinc j). lra.
Qed.

Lemma recorded_times (k : nat) :
  sa_rows hist0 = [] ->
  sa_t (recorded net_step net_thermo r net0 hist0 print_step k) =
  t_after net_step net0 <$> sampled_turns print_step k.
Proof.
  intros H0. unfold sa_t, recorded. simpl. rewrite H0. simpl.
  rewrite <- list_fmap_compose. reflexivity.
Qed.

Lemma recorded_increasing (k : nat) :
  steps_increase net_step net0 -> sa_rows hist0 = [] ->
  strictly_increasing
    (sa_t (recorded net_step net_thermo r net0 hist0 print_step k)).
Proof.
  intros Hinc H0. rewrite (recorded_times k H0).
  intros i a b Ha Hb.
  rewrite list_lookup_fmap in Ha, Hb.
  destruct (sampled_turns print_step k !! i) as [c|] eqn:Hc;
    [|discriminate Ha].
  destruct (sampled_turns print_step k !! (i + 1)) as [c'|] eqn:Hc';
    [|discriminate Hb].
  simpl in Ha, Hb. injection Ha as <-. injection Hb as <-.
  pose proof (sampled_turns_increasing _ _ _ _ _ Hc Hc') as Hlt.
  apply list_elem_of_lookup_2, sampled_turns_bounds in Hc.
  destruct c as [|c]; [lia|]. destruct c' as [|c']; [lia|]. simpl.
  apply step_time_strict; [exact Hinc | lia].
Qed.

End Sampling.

(** When the loop is left, its variables are those reached after some
    number [k] of turns: the counter is [1 + k], the time and the network
    are those after [k] steps, and the history is the initial one followed
    by one row for each turn [c] of [1..k] with [c % print_step == 0], in
    order, holding the state of the sampled reactor and the time after [c]
    steps.  The time was below [end_time] before every turn taken. *)
Theorem advance_records :
  forall (ReactorNet : Type)
         (net_step : ReactorNet -> Q * ReactorNet)
         (net_thermo : ReactorNet -> Reactor -> ThermoState)
         (fuel : nat) (r : Reactor) (end_time : Q) (print_step : Z)
         (hist0 : SolutionArray) (net0 : ReactorNet)
         (s : LoopState ReactorNet),
    print_step <> 0%Z ->
    advance net_step net_thermo fuel r end_time print_step
      (mkLoopState 0 1 hist0 net0) = Some (ok s) ->
    exists k,
      k <= fuel /\
      ls_counter s = (1 + Z.of_nat k)%Z /\
      ls_t s = t_after net_step net0 k /\
      ls_net s = net_after net_step k net0 /\
      sa_species (ls_timeHistory s) = sa_species hist0 /\
      sa_rows (ls_timeHistory s) =
        sa_rows hist0 ++
        (sample_at net_step net_thermo r net0 <$> sampled_turns print_step k) /\
      (end_time <= ls_t s)%Q /\
      (forall i, i < k -> (t_after net_step net0 i < end_time)%Q).
Proof.
  intros ReactorNet net_step net_thermo fuel r end_time print_step hist0 net0
    s Hps Hrun.
  destruct (advance_recorded net_step net_thermo r end_time print_step net0
              hist0 Hps fuel s Hrun) as (k & Hk & -> & Hexit & Hlt).
  exists k. simpl. repeat split; assumption.
Qed.

Lemma stub_final_run :
  advance stub_step stub_thermo 50 (mkReactor 7 gas_mix 1) 0.005 20
    (mkLoopState 0 1 (history_of []) 0) = Some (ok stub_final).
Proof. vm_compute. reflexivity. Qed.

Lemma advance_records_witness :
  exists k,
    k <= 50 /\
    ls_counter stub_final = (1 + Z.of_nat k)%Z /\
    ls_t stub_final = t_after stub_step 0 k /\
    ls_net stub_final = net_after stub_step k 0 /\
    sa_species (ls_timeHistory stub_final) = sa_species (history_of []) /\
    sa_rows (ls_timeHistory stub_final) =
      sa_rows (history_of []) ++
      (sample_at stub_step stub_thermo (mkReactor 7 gas_mix 1) 0 <$>
       sampled_turns 20 k) /\
    (0.005 <= ls_t stub_final)%Q /\
    (forall i, i < k -> (t_after stub_step 0%nat i < 0.005)%Q).
Proof.
  apply (advance_records nat stub_step stub_thermo 50 (mkReactor 7 gas_mix 1)
           0.005 20 (history_of []) 0 stub_final).
  - discriminate.
  - exact stub_final_run.
Defined.

(** The sampling cadence bounds the history: for a positive
    [print_step], the loop appends one row per [print_step] turns, the
    integer quotient of the number of turns by [print_step] in all. *)
Theorem advance_history_length :
  forall (ReactorNet : Type)
         (net_step : ReactorNet -> Q * ReactorNet)
         (net_thermo : ReactorNet -> Reactor -> ThermoState)
         (fuel : nat) (r : Reactor) (end_time : Q) (print_step : Z)
         (hist0 : SolutionArray) (net0 : ReactorNet)
         (s : LoopState ReactorNet),
    (0 < print_step)%Z ->
    advance net_step net_thermo fuel r end_time print_step
      (mkLoopState 0 1 hist0 net0) = Some (ok s) ->
    length (sa_rows (ls_timeHistory s)) =
    length (sa_rows hist0) + Z.to_nat ((ls_counter s - 1) / print_step).
Proof.
  intros ReactorNet net_step net_thermo fuel r end_time print_step hist0 net0
    s Hps Hrun.
  destruct (advance_recorded net_step net_thermo r end_time print_step net0
              hist0 ltac:(lia) fuel s Hrun) as (k & _ & -> & _).
  simpl. rewrite length_app, length_fmap, sampled_turns_length by exact Hps.
  replace (1 + Z.of_nat k - 1)%Z with (Z.of_nat k) by lia. reflexivity.
Qed.

Lemma advance_history_length_witness :
  length (sa_rows (ls_timeHistory stub_final)) =
  length (sa_rows (history_of [])) +
  Z.to_nat ((ls_counter stub_final - 1) / 20).
Proof.
  apply (advance_history_length nat stub_step stub_thermo 50
           (mkReactor 7 gas_mix 1) 0.005 20 (history_of []) 0 stub_final).
  - reflexivity.
  - exact stub_final_run.
Defined.

(** Under the solver's strictly increasing step times, the times of the
    recorded history strictly increase: no two recorded samples share a
    time stamp. *)
Theorem advance_history_increasing :
  forall (ReactorNet : Type)
         (net_step : ReactorNet -> Q * ReactorNet)
         (net_thermo : ReactorNet -> Reactor -> ThermoState)
         (fuel : nat) (r : Reactor) (end_time : Q) (print_step : Z)
         (hist0 : SolutionArray) (net0 : ReactorNet)
         (s : LoopState ReactorNet),
    print_step <> 0%Z ->
    steps_increase net_step net0 ->
    sa_rows hist0 = [] ->
    advance net_step net_thermo fuel r end_time print_step
      (mkLoopState 0 1 hist0 net0) = Some (ok s) ->
    strictly_increasing (sa_t (ls_timeHistory s)).
Proof.
  intros ReactorNet net_step net_thermo fuel r end_time print_step hist0 net0
    s Hps Hinc H0 Hrun.
  destruct (advance_recorded net_step net_thermo r end_time print_step net0
              hist0 Hps fuel s Hrun) as (k & _ & -> & _).
  cbn [ls_timeHistory].
  exact (recorded_increasing net_step net_thermo r print_step net0 hist0
           k Hinc H0).
Qed.

Lemma advance_history_increasing_witness :
  strictly_increasing (sa_t (ls_timeHistory stub_final)).
Proof.
  apply (advance_history_increasing nat stub_step stub_thermo 50
           (mkReactor 7 gas_mix 1) 0.005 20 (history_of []) 0 stub_final).
  - discriminate.
  - exact (stub_increase 0).
  - reflexivity.
  - exact stub_final_run.
Defined.

(** ** Too few samples *)

Lemma advance_undersampled {ReactorNet : Type}
    (net_step : ReactorNet -> Q * ReactorNet)
    (net_thermo : ReactorNet -> Reactor -> ThermoState)
    (r : Reactor) (end_time : Q) (print_step : Z)
    (hist0 : SolutionArray) (net0 : ReactorNet) (fuel : nat) :
  (0 < print_step)%Z ->
  sa_rows hist0 = [] ->
  (end_time <= t_after net_step net0 (Z.to_nat (2 * print_step - 1)))%Q ->
  Z.to_nat (2 * print_step - 1) <= fuel ->
  exists s,
    advance net_step net_thermo fuel r end_time print_step
      (mkLoopState 0 1 hist0 net0) = Some (ok s) /\
    length (sa_rows (ls_timeHistory s)) < 2.
Proof.
  intros Hps H0 Hreach Hfuel.
  assert (Hnz : print_step <> 0%Z) by lia.
  set (d := Z.to_nat (2 * print_step - 1)) in *.
  destruct (advance_from net_step net_thermo r end_time print_step net0 Hnz
              d 0 hist0 Hreach ltac:(intros i Hi; lia))
    as (k & hist' & Hk & Hrun & _).
  specialize (Hrun fuel ltac:(lia)).
  change (advance net_step net_thermo fuel r end_time print_step
            (mkLoopState 0 1 hist0 net0) =
          Some (ok (mkLoopState (t_after net_step net0 k) (1 + Z.of_nat k)
                      hist' (net_after net_step k net0)))) in Hrun.
  eexists. split; [exact Hrun|].
  destruct (advance_recorded net_step net_thermo r end_time print_step net0
              hist0 Hnz fuel _ Hrun) as (k' & _ & E & _ & Hlt).
  injection E as _ Ek -> _. simpl.
  rewrite H0, length_app, length_fmap, sampled_turns_length by exact Hps.
  simpl.
  assert (Hk' : k' <= d).
  { destruct (decide (k' <= d)) as [|Hgt]; [assumption|]. exfalso.
    specialize (Hlt d ltac:(lia)). lra. }
  assert (Z.of_nat k' / print_step < 2)%Z
    by (apply Z.div_lt_upper_bound; lia).
  pose proof (Z.div_pos (Z.of_nat k') print_step ltac:(lia) Hps). lia.
Qed.

(** A coarse cadence hides the ignition: for a positive [print_step],
    if the solver reaches [end_time] within [2 * print_step - 1] steps,
    fewer than two rows are recorded and both runners return 0, whatever
    the reactor does. *)
Theorem run_cal_undersampled :
  forall (ReactorNet : Type)
         (ReactorNet_new : list Reactor -> list Wall -> ReactorNet)
         (net_step : ReactorNet -> Q * ReactorNet)
         (net_thermo : ReactorNet -> Reactor -> ThermoState)
         (fuel : nat) (h : store) (gas : loc) (g : Solution)
         (end_time : Q) (print_step : Z),
    (0 < print_step)%Z ->
    (forall net,
       (end_time <= t_after net_step net (Z.to_nat (2 * print_step - 1)))%Q) ->
    Z.to_nat (2 * print_step - 1) <= fuel ->
    h !! gas = Some g ->
    run_cal_ideal ReactorNet_new net_step net_thermo fuel h gas end_time
      print_step = Some (ok 0%Q) /\
    (str_in "H2" (sol_species g) = true ->
     run_cal_real ReactorNet_new net_step net_thermo fuel h gas end_time
       print_step = Some (ok 0%Q)).
Proof.
  intros ReactorNet ReactorNet_new net_step net_thermo fuel h gas g end_time
    print_step Hps Hreach Hfuel Hg.
  split.
  - unfold run_cal_ideal, Reactor_new, SolutionArray_new. rewrite Hg.
    cbn -[advance].
    destruct (advance_undersampled net_step net_thermo (mkReactor gas g 1)
                end_time print_step (mkSolutionArray (sol_species g) [])
                (ReactorNet_new [mkReactor gas g 1] []) fuel Hps eq_refl
                (Hreach _) Hfuel) as (s & -> & Hlen).
    rewrite (get_IDT_short (ls_timeHistory s) "T" (or_introl eq_refl) Hlen).
    reflexivity.
  - intros HH2. unfold run_cal_real.
    rewrite (run_cal_real_setup_spec h gas g Hg HH2).
    unfold SolutionArray_new. cbn -[advance]. rewrite lookup_insert_eq.
    cbn -[advance].
    match goal with
    | |- context [advance _ _ _ ?r _ _ (mkLoopState _ _ ?hist0 ?net)] =>
        destruct (advance_undersampled net_step net_thermo r end_time
                    print_step hist0 net fuel Hps eq_refl (Hreach _) Hfuel)
          as (s & -> & Hlen)
    end.
    rewrite (get_IDT_short (ls_timeHistory s) "T" (or_introl eq_refl) Hlen).
    reflexivity.
Qed.

Lemma stub_reaches (n k : nat) :
  (stub_time k <= t_after stub_step n k)%Q.
Proof.
  destruct k as [|k]; [discriminate|].
  simpl. rewrite stub_step_time.
  destruct (decide (S k = S (k + n))) as [<-|Hne]; [apply Qle_refl|].
  apply Qlt_le_weak, stub_time_lt. lia.
Qed.

Lemma run_cal_undersampled_witness :
  run_cal_ideal stub_new stub_step stub_thermo 50 store_one 7 0.0039 20 =
    Some (ok 0%Q) /\
  run_cal_real stub_new stub_step stub_thermo 50 store_one 7 0.0039 20 =
    Some (ok 0%Q).
Proof.
  destruct (run_cal_undersampled nat stub_new stub_step stub_thermo 50
              store_one 7 gas_mix 0.0039 20) as [Hideal Hreal].
  - reflexivity.
  - intros net. apply (Qle_trans _ (stub_time 39)); [discriminate|].
    apply (stub_reaches net 39).
  - simpl. lia.
  - reflexivity.
  - split; [exact Hideal | apply Hreal; reflexivity].
Defined.

(** ** The sign of the runners' result *)

Lemma advance_zero_inv {ReactorNet : Type}
    (net_step : ReactorNet -> Q * ReactorNet)
    (net_thermo : ReactorNet -> Reactor -> ThermoState)
    (fuel : nat) (r : Reactor) (end_time : Q)
    (s0 s : LoopState ReactorNet) :
  advance net_step net_thermo fuel r end_time 0 s0 = Some (ok s) -> s = s0.
Proof.
  destruct fuel; cbn [advance]; destruct (Qltb (ls_t s0) end_time);
    try discriminate; try (intros H; injection H as <-; reflexivity).
  unfold advance_body. destruct (net_step (ls_net s0)). discriminate.
Qed.

Lemma loop_result_nonneg {ReactorNet : Type}
    (net_step : ReactorNet -> Q * ReactorNet)
    (net_thermo : ReactorNet -> Reactor -> ThermoState)
    (fuel : nat) (r : Reactor) (end_time : Q) (print_step : Z)
    (hist0 : SolutionArray) (net0 : ReactorNet)
    (s : LoopState ReactorNet) (idt : Q) :
  steps_increase net_step net0 ->
  (0 <= step_time net_step net0 0)%Q ->
  sa_rows hist0 = [] ->
  advance net_step net_thermo fuel r end_time print_step
    (mkLoopState 0 1 hist0 net0) = Some (ok s) ->
  get_IDT (ls_timeHistory s) "T" = ok idt ->
  (0 <= idt)%Q.
Proof.
  intros Hinc Hfirst H0 Hrun Hidt.
  apply get_IDT_elem in Hidt. destruct Hidt as [-> | Hin]; [apply Qle_refl|].
  destruct (Z.eq_dec print_step 0) as [->|Hps].
  - apply advance_zero_inv in Hrun. subst s. simpl in Hin.
    unfold sa_t in Hin. rewrite H0 in Hin. inversion Hin.
  - destruct (advance_recorded net_step net_thermo r end_time print_step net0
                hist0 Hps fuel s Hrun) as (k & _ & -> & _).
    cbn [ls_timeHistory] in Hin. rewrite recorded_times in Hin by exact H0.
    apply list_elem_of_fmap in Hin. destruct Hin as (c & -> & Hc).
    apply sampled_turns_bounds in Hc. destruct c as [|c]; [lia|]. simpl.
    pose proof (step_time_mono net_step net0 0 c Hinc ltac:(lia)). lra.
Qed.

(** When the solver's times start at or above zero and strictly increase,
    the ignition delay returned by either runner is never negative. *)
Theorem run_cal_nonnegative :
  forall (ReactorNet : Type)
         (ReactorNet_new : list Reactor -> list Wall -> ReactorNet)
         (net_step : ReactorNet -> Q * ReactorNet)
         (net_thermo : ReactorNet -> Reactor -> ThermoState)
         (fuel : nat) (h : store) (gas : loc)
         (end_time : Q) (print_step : Z),
    (forall net,
       steps_increase net_step net /\ (0 <= step_time net_step net 0)%Q) ->
    (forall res,
       run_cal_ideal ReactorNet_new net_step net_thermo fuel h gas end_time
         print_step = Some (ok res) -> (0 <= res)%Q) /\
    (forall res,
       run_cal_real ReactorNet_new net_step net_thermo fuel h gas end_time
         print_step = Some (ok res) -> (0 <= res)%Q).
Proof.
  intros ReactorNet ReactorNet_new net_step net_thermo fuel h gas end_time
    print_step Hsolver.
  assert (Hmul : forall idt, (0 <= idt)%Q -> (0 <= idt * 1000)%Q).
  { intros idt Hidt. apply Qmult_le_0_compat; [exact Hidt | discriminate]. }
  split; intros res.
  - unfold run_cal_ideal, Reactor_new, SolutionArray_new.
    destruct (h !! gas) as [g|]; cbn -[advance]; [|discriminate].
    destruct (advance _ _ _ _ _ _ _) as [[s|e]|] eqn:Hrun; try discriminate.
    destruct (get_IDT (ls_timeHistory s) "T") as [idt|e] eqn:Hidt;
      simpl; [|discriminate].
    intros H. injection H as <-. apply Hmul.
    eapply loop_result_nonneg; [apply Hsolver | apply Hsolver | |
                                exact Hrun | exact Hidt].
    reflexivity.
  - unfold run_cal_real.
    destruct (run_cal_real_setup h gas) as [[[[r1 gas2] r2] h']|e];
      cbn -[advance]; [|discriminate].
    unfold SolutionArray_new.
    destruct (h' !! gas) as [g|]; cbn -[advance]; [|discriminate].
    destruct (advance _ _ _ _ _ _ _) as [[s|e]|] eqn:Hrun; try discriminate.
    destruct (get_IDT (ls_timeHistory s) "T") as [idt|e] eqn:Hidt;
      simpl; [|discriminate].
    intros H. injection H as <-. apply Hmul.
    eapply loop_result_nonneg; [apply Hsolver | apply Hsolver | |
                                exact Hrun | exact Hidt].
    reflexivity.
Qed.

Lemma stub_solver_positive (n : nat) :
  steps_increase stub_step n /\ (0 <= step_time stub_step n 0)%Q.
Proof.
  split; [apply stub_increase|].
  rewrite stub_step_time.
  apply (Qle_trans _ (stub_time 0)); [discriminate|].
  apply Qlt_le_weak, stub_time_lt. lia.
Qed.

Lemma run_cal_nonnegative_witness :
  exists res,
    run_cal_ideal stub_new stub_step stub_thermo 50 store_one 7 0.005 20 =
      Some (ok res) /\
    (0 <= res)%Q.
Proof.
  destruct (run_cal_nonnegative nat stub_new stub_step stub_thermo 50
              store_one 7 0.005 20 stub_solver_positive) as [Hideal _].
  exists 2.0000%Q.
  assert (Hrun : run_cal_ideal stub_new stub_step stub_thermo 50 store_one 7
                   0.005 20 = Some (ok 2.0000%Q))
    by (vm_compute; reflexivity).
  split; [exact Hrun | apply Hideal, Hrun].
Defined.
